(** * graphene-sphere.c: a bounding sphere over single-precision vectors

    A shallow embedding of [src/graphene-sphere.c].  The C type [float] is
    IEEE 754 binary32, taken from the Standard Library's [SpecFloat] at
    precision 24 and maximal exponent 128, with round-to-nearest-even;
    every operation rounds to that format ([FLT_EVAL_METHOD] 0, nothing
    fused).  Spheres live in a store indexed by addresses, so that [NULL],
    pointer identity and the aliasing of an output parameter with an input
    are visible; the functions of the C file are computations in a small
    state-and-failure monad over that store (failure is a dereference of
    [NULL] or of an address that holds no sphere).  The vector, point and
    box operations they call are not among the sources; they follow the
    specification and are marked as such.

    In the statements the squared Euclidean distance from a center to a
    point is [squared_euclidean_distance], the formula written out in
    single precision, which is what [distance_sq] computes
    ([distance_sq_euclidean]); the distance is [sqrtf] of it, as in
    [graphene_sphere_distance]. *)

From Stdlib Require Import ZArith Bool List Lia.
From Stdlib Require Import Floats.SpecFloat.
From stdpp Require Import gmap.

Local Open Scope Z_scope.

(** ** Single-precision arithmetic *)

Module F32.

Definition prec : Z := 24.
Definition emax : Z := 128.

Definition float := spec_float.

(** The literals [0.f] and [0.5f]. *)
Definition zero : float := S754_zero false.
Definition half : float := S754_finite false 8388608 (-24).

(** An integer literal converted to [float]. *)
Definition of_Z (n : Z) : float := binary_normalize prec emax n 0 false.

Definition add : float -> float -> float := SFadd prec emax.
Definition sub : float -> float -> float := SFsub prec emax.
Definition mul : float -> float -> float := SFmul prec emax.
Definition neg : float -> float := SFopp.

(** The comparisons [<=], [<], [==] and [!=] of C. *)
Definition le : float -> float -> bool := SFleb.
Definition lt : float -> float -> bool := SFltb.
Definition eq : float -> float -> bool := SFeqb.
Definition ne (a b : float) : bool := negb (SFeqb a b).

(** [sqrtf] of <math.h>: the correctly rounded square root. *)
Definition sqrtf : float -> float := SFsqrt prec emax.

Definition is_nan (a : float) : bool :=
  match a with S754_nan => true | _ => false end.

(** [fmaxf] of <math.h>: a NaN argument is treated as missing data. *)
Definition fmaxf (a b : float) : float :=
  if is_nan a then b
  else if is_nan b then a
  else if lt a b then b else a.

(** Neither NaN nor an infinity. *)
Definition is_finite (a : float) : bool :=
  match a with
  | S754_zero _ | S754_finite _ _ _ => true
  | _ => false
  end.

(** Not NaN, and with the sign bit [s]. *)
Definition sign_is (s : bool) (a : float) : bool :=
  match a with
  | S754_zero s' | S754_infinity s' | S754_finite s' _ _ => Bool.eqb s' s
  | S754_nan => false
  end.

(** Neither NaN nor a zero. *)
Definition nonzero (a : float) : bool :=
  match a with
  | S754_infinity _ | S754_finite _ _ _ => true
  | _ => false
  end.

(** A value that a binary32 datum can hold. *)
Definition valid : float -> bool := valid_binary prec emax.

End F32.

Abbreviation float := F32.float.

(** ** Points, vectors and boxes *)

(** [graphene_point3d_t]: plain storage of three coordinates, read by the
    C code as [point->x], [point->y] and [point->z]. *)
Record graphene_point3d_t := point3d { x : float; y : float; z : float }.

(** Modelled from the spec: the SIMD vector behind [graphene_vec3_t]
    (graphene-simd4f.h is not among the sources).  The spec describes
    Vector3 as a 3-component float vector; these are its three lanes. *)
Record graphene_simd4f_t :=
  simd4f { lane_x : float; lane_y : float; lane_z : float }.

(** [graphene_vec3_t] wraps the SIMD value in its field [value], which
    [graphene_sphere_equal] reads directly. *)
Record graphene_vec3_t := vec3 { value : graphene_simd4f_t }.

Definition vec3_x (v : graphene_vec3_t) : float := lane_x (value v).
Definition vec3_y (v : graphene_vec3_t) : float := lane_y (value v).
Definition vec3_z (v : graphene_vec3_t) : float := lane_z (value v).

(** Modelled from the spec: Vector3 [initFromComponents(x,y,z)]
    (graphene-vec3.c is not among the sources). *)
Definition graphene_vec3_init (a b c : float) : graphene_vec3_t :=
  vec3 (simd4f a b c).

(** Modelled from the spec: Vector3 [zero()], the vector (0,0,0). *)
Definition graphene_vec3_zero : graphene_vec3_t :=
  vec3 (simd4f F32.zero F32.zero F32.zero).

(** Modelled from the spec: Vector3 [initFromVector(v)], a copy. *)
Definition graphene_vec3_init_from_vec3 (src : graphene_vec3_t)
  : graphene_vec3_t := vec3 (value src).

(** Modelled from the spec: Vector3 [add(a,b)->c], component-wise. *)
Definition graphene_vec3_add (a b : graphene_vec3_t) : graphene_vec3_t :=
  graphene_vec3_init (F32.add (vec3_x a) (vec3_x b))
                     (F32.add (vec3_y a) (vec3_y b))
                     (F32.add (vec3_z a) (vec3_z b)).

(** Modelled from the spec: Vector3 [subtract(a,b)->c], component-wise. *)
Definition graphene_vec3_subtract (a b : graphene_vec3_t) : graphene_vec3_t :=
  graphene_vec3_init (F32.sub (vec3_x a) (vec3_x b))
                     (F32.sub (vec3_y a) (vec3_y b))
                     (F32.sub (vec3_z a) (vec3_z b)).

(** Modelled from the spec: Vector3 [dot(a,b)->float], the sum of the three
    products, added from the first lane on. *)
Definition graphene_vec3_dot (a b : graphene_vec3_t) : float :=
  F32.add (F32.add (F32.mul (vec3_x a) (vec3_x b))
                   (F32.mul (vec3_y a) (vec3_y b)))
          (F32.mul (vec3_z a) (vec3_z b)).

(** Modelled from the spec: Vector3 [exactEquals(a,b)->bool], the lanes
    compared with [==], no tolerance. *)
Definition graphene_simd4f_cmp_eq (a b : graphene_simd4f_t) : bool :=
  F32.eq (lane_x a) (lane_x b) &&
  F32.eq (lane_y a) (lane_y b) &&
  F32.eq (lane_z a) (lane_z b).

(** Modelled from the spec: Point3D [initFromVector3(v)->Point3D]
    (graphene-point3d.c is not among the sources), the point with the
    three components of the vector. *)
Definition graphene_point3d_init_from_vec3 (v : graphene_vec3_t)
  : graphene_point3d_t := point3d (vec3_x v) (vec3_y v) (vec3_z v).

(** Modelled from the spec: Box, an axis-aligned bounding box with its
    min and max corners (graphene-box.h is not among the sources). *)
Record graphene_box_t :=
  box { box_min : graphene_vec3_t; box_max : graphene_vec3_t }.

(** Modelled from the spec: the smaller and the larger of two floats, by
    which the corners of a bounding box are found. *)
Definition f32_min (a b : float) : float := if F32.lt b a then b else a.
Definition f32_max (a b : float) : float := if F32.lt a b then b else a.

(** Modelled from the spec: the component-wise minimum and maximum of two
    vectors. *)
Definition vec3_min (a b : graphene_vec3_t) : graphene_vec3_t :=
  graphene_vec3_init (f32_min (vec3_x a) (vec3_x b))
                     (f32_min (vec3_y a) (vec3_y b))
                     (f32_min (vec3_z a) (vec3_z b)).

Definition vec3_max (a b : graphene_vec3_t) : graphene_vec3_t :=
  graphene_vec3_init (f32_max (vec3_x a) (vec3_x b))
                     (f32_max (vec3_y a) (vec3_y b))
                     (f32_max (vec3_z a) (vec3_z b)).

(** The vector with the coordinates of a point, which the C code builds
    with [graphene_vec3_init (&tmp, point->x, point->y, point->z)]. *)
Definition point3d_to_vec3 (p : graphene_point3d_t) : graphene_vec3_t :=
  graphene_vec3_init (x p) (y p) (z p).

(** Modelled from the spec: a box grown so that it holds one more point. *)
Definition box_expand_vec3 (b : graphene_box_t) (v : graphene_vec3_t)
  : graphene_box_t :=
  box (vec3_min (box_min b) v) (vec3_max (box_max b) v).

(** Modelled from the spec: Box [initFromPoints(points)->Box]
    (graphene-box.c is not among the sources): the axis-aligned bounding
    box of the points, its corners the component-wise minimum and maximum.
    For an array without points the spec puts the center at (0,0,0); the
    box is then the degenerate box at the origin. *)
Definition graphene_box_init_from_points (points : list graphene_point3d_t)
  : graphene_box_t :=
  match points with
  | [] => box graphene_vec3_zero graphene_vec3_zero
  | p :: ps =>
      fold_left (fun b q => box_expand_vec3 b (point3d_to_vec3 q)) ps
                (box (point3d_to_vec3 p) (point3d_to_vec3 p))
  end.

(** Modelled from the spec: Box [center(box)->Point3D], the geometric
    center, half the sum of the two corners. *)
Definition graphene_box_get_center (b : graphene_box_t) : graphene_point3d_t :=
  let s := graphene_vec3_add (box_min b) (box_max b) in
  point3d (F32.mul (vec3_x s) F32.half)
          (F32.mul (vec3_y s) F32.half)
          (F32.mul (vec3_z s) F32.half).

(** ** Spheres in memory *)

(** [graphene_sphere_t]: the fields [center] and [radius] that the C code
    reads and writes. *)
Record graphene_sphere_t :=
  sphere { center : graphene_vec3_t; radius : float }.

(** A [graphene_sphere_t *]. *)
Inductive sphere_ptr := NULL | Ptr (l : positive).

Definition ptr_eqb (a b : sphere_ptr) : bool :=
  match a, b with
  | NULL, NULL => true
  | Ptr l, Ptr l' => Pos.eqb l l'
  | _, _ => false
  end.

Definition is_null (a : sphere_ptr) : bool :=
  match a with NULL => true | Ptr _ => false end.

(** The store: the spheres that are allocated, by address. *)
Abbreviation heap := (gmap positive graphene_sphere_t).

(** Computations that read and write the store and may fault. *)
Definition M (A : Type) : Type := heap -> option (A * heap).

#[global] Instance M_ret : MRet M := fun A (a : A) h => Some (a, h).

#[global] Instance M_bind : MBind M := fun A B (k : A -> M B) (m : M A) h =>
  match m h with
  | Some (a, h') => k a h'
  | None => None
  end.

Definition ret {A} (a : A) : M A := mret a.

(** [s->center] and [s->radius] read. *)
Definition load (s : sphere_ptr) : M graphene_sphere_t :=
  fun h => match s with
           | NULL => None
           | Ptr l => match h !! l with
                      | Some v => Some (v, h)
                      | None => None
                      end
           end.

Definition load_center (s : sphere_ptr) : M graphene_vec3_t :=
  v ← load s; ret (center v).

Definition load_radius (s : sphere_ptr) : M float :=
  v ← load s; ret (radius v).

(** [s->center = c] and [s->radius = r]: the other field keeps its value. *)
Definition store_center (s : sphere_ptr) (c : graphene_vec3_t) : M unit :=
  fun h => match s with
           | NULL => None
           | Ptr l => match h !! l with
                      | Some v => Some (tt, <[l := sphere c (radius v)]> h)
                      | None => None
                      end
           end.

Definition store_radius (s : sphere_ptr) (r : float) : M unit :=
  fun h => match s with
           | NULL => None
           | Ptr l => match h !! l with
                      | Some v => Some (tt, <[l := sphere (center v) r]> h)
                      | None => None
                      end
           end.

(** ** The functions of graphene-sphere.c *)

(** [graphene_sphere_init] *)
Definition graphene_sphere_init (s : sphere_ptr)
    (center : option graphene_point3d_t) (radius : float) : M sphere_ptr :=
  match center with
  | None => store_center s (graphene_vec3_init_from_vec3 graphene_vec3_zero)
  | Some c => store_center s (graphene_vec3_init (x c) (y c) (z c))
  end;;
  store_radius s radius;;
  ret s.

(** [distance_sq] *)
Definition distance_sq (p1 p2 : graphene_vec3_t) : float :=
  let delta := graphene_vec3_subtract p1 p2 in
  graphene_vec3_dot delta delta.

(** The loop of [graphene_sphere_init_from_points]: one iteration for each
    point, in order, from the running maximum [max_radius_sq]. *)
Fixpoint max_radius_loop (s : sphere_ptr) (points : list graphene_point3d_t)
    (max_radius_sq : float) : M float :=
  match points with
  | [] => ret max_radius_sq
  | point :: rest =>
      let p := graphene_vec3_init (x point) (y point) (z point) in
      c ← load_center s;
      max_radius_loop s rest (F32.fmaxf max_radius_sq (distance_sq c p))
  end.

(** [graphene_sphere_init_from_points]; the array [points] with its length
    [n_points] is the list [points]. *)
Definition graphene_sphere_init_from_points (s : sphere_ptr)
    (points : list graphene_point3d_t) (center : option graphene_point3d_t)
  : M sphere_ptr :=
  let max_radius_sq := F32.zero in
  match center with
  | Some c => store_center s (graphene_vec3_init (x c) (y c) (z c))
  | None =>
      let b := graphene_box_init_from_points points in
      let c := graphene_box_get_center b in
      store_center s (graphene_vec3_init (x c) (y c) (z c))
  end;;
  max_radius_sq ← max_radius_loop s points max_radius_sq;
  store_radius s (F32.sqrtf max_radius_sq);;
  ret s.

(** [graphene_sphere_get_center] *)
Definition graphene_sphere_get_center (s : sphere_ptr) : M graphene_point3d_t :=
  c ← load_center s; ret (graphene_point3d_init_from_vec3 c).

(** [graphene_sphere_get_radius] *)
Definition graphene_sphere_get_radius (s : sphere_ptr) : M float :=
  load_radius s.

(** [graphene_sphere_is_empty]: [&&] does not read [s->radius] when [s] is
    [NULL]. *)
Definition graphene_sphere_is_empty (s : sphere_ptr) : M bool :=
  if negb (is_null s) then
    r ← load_radius s; ret (F32.le r (F32.of_Z 0))
  else ret false.

(** [graphene_sphere_contains_point] *)
Definition graphene_sphere_contains_point (s : sphere_ptr)
    (point : graphene_point3d_t) : M bool :=
  let tmp := graphene_vec3_init (x point) (y point) (z point) in
  r ← load_radius s;
  let radius_sq := F32.mul r r in
  c ← load_center s;
  if F32.le (distance_sq c tmp) radius_sq then ret true
  else ret false.

(** [graphene_sphere_distance] *)
Definition graphene_sphere_distance (s : sphere_ptr)
    (point : graphene_point3d_t) : M float :=
  let tmp := graphene_vec3_init (x point) (y point) (z point) in
  c ← load_center s;
  r ← load_radius s;
  ret (F32.sub (F32.sqrtf (distance_sq c tmp)) r).

(** [graphene_sphere_translate]: the sum is written to [res->center]; no
    other field of [*res] is written. *)
Definition graphene_sphere_translate (s : sphere_ptr)
    (point : graphene_point3d_t) (res : sphere_ptr) : M unit :=
  let tmp := graphene_vec3_init (x point) (y point) (z point) in
  c ← load_center s;
  store_center res (graphene_vec3_add c tmp).

(** [graphene_sphere_equal] *)
Definition graphene_sphere_equal (a b : sphere_ptr) : M bool :=
  if ptr_eqb a b then ret true
  else if is_null a || is_null b then ret false
  else
    ra ← load_radius a;
    rb ← load_radius b;
    if F32.ne ra rb then ret false
    else
      ca ← load_center a;
      cb ← load_center b;
      ret (graphene_simd4f_cmp_eq (value ca) (value cb)).

(** ** Vocabulary of the statements *)

(** The pointers a caller may pass: [NULL], or the address of a sphere. *)
Definition valid_ptr (h : heap) (s : sphere_ptr) : Prop :=
  match s with
  | NULL => True
  | Ptr l => is_Some (h !! l)
  end.

(** Vectors and points without NaN and without infinities. *)
Definition vec3_finite (v : graphene_vec3_t) : bool :=
  F32.is_finite (vec3_x v) && F32.is_finite (vec3_y v)
  && F32.is_finite (vec3_z v).

Definition point3d_finite (p : graphene_point3d_t) : bool :=
  F32.is_finite (x p) && F32.is_finite (y p) && F32.is_finite (z p).

(** The center that [graphene_sphere_init] writes. *)
Definition center_of (c : option graphene_point3d_t) : graphene_vec3_t :=
  match c with
  | None => graphene_vec3_zero
  | Some p => graphene_vec3_init (x p) (y p) (z p)
  end.

(** The center that [graphene_sphere_init_from_points] chooses. *)
Definition chosen_center (points : list graphene_point3d_t)
    (c : option graphene_point3d_t) : graphene_vec3_t :=
  match c with
  | Some p => graphene_vec3_init (x p) (y p) (z p)
  | None =>
      let q := graphene_box_get_center (graphene_box_init_from_points points) in
      graphene_vec3_init (x q) (y q) (z q)
  end.

(** The running maximum after the loop over [points], from [m]. *)
Definition running_max (c : graphene_vec3_t) (points : list graphene_point3d_t)
    (m : float) : float :=
  fold_left (fun m p => F32.fmaxf m (distance_sq c (point3d_to_vec3 p))) points m.

(** The squared distances from [c] to the points, in the order of the
    array. *)
Definition sq_distances (c : graphene_vec3_t)
    (points : list graphene_point3d_t) : list float :=
  map (fun p => distance_sq c (point3d_to_vec3 p)) points.

(** The spec's maximum over the input points: [m] is the maximum of the
    list [l] when it is one of its elements and no element exceeds it. *)
Definition is_maximum_of (m : float) (l : list float) : Prop :=
  In m l /\ forall d, In d l -> F32.le d m = true.

(** The squared Euclidean distance of the claims, from a center [c] to a
    point [p], in single precision: the squares of the three differences
    of the coordinates, added from the first on. *)
Definition squared_euclidean_distance (c : graphene_vec3_t)
    (p : graphene_point3d_t) : float :=
  let dx := F32.sub (vec3_x c) (x p) in
  let dy := F32.sub (vec3_y c) (y p) in
  let dz := F32.sub (vec3_z c) (z p) in
  F32.add (F32.add (F32.mul dx dx) (F32.mul dy dy)) (F32.mul dz dz).

(** The floats of a list that are not NaN. *)
Definition without_nan (l : list float) : list float :=
  List.filter (fun d => negb (F32.is_nan d)) l.

(** ** Data of the examples *)

(** Integer literals, and points and vectors with integer coordinates. *)
Definition f32 (n : Z) : float := F32.of_Z n.
Definition pt (a b c : Z) : graphene_point3d_t := point3d (f32 a) (f32 b) (f32 c).
Definition v3 (a b c : Z) : graphene_vec3_t := graphene_vec3_init (f32 a) (f32 b) (f32 c).

(** What [graphene_sphere_alloc] hands out: [calloc] clears the storage. *)
Definition fresh_sphere : graphene_sphere_t := sphere graphene_vec3_zero F32.zero.

(** A store with one cleared sphere at address 1. *)
Definition heap1 : heap := {[ 1%positive := fresh_sphere ]}.

(** A unit sphere at the origin next to a cleared sphere. *)
Definition heap2 : heap :=
  <[ 2%positive := fresh_sphere ]>
    {[ 1%positive := sphere (v3 0 0 0) (f32 1) ]}.

(** Two spheres with the same center and radii 3 and -3. *)
Definition heap3 : heap :=
  <[ 2%positive := sphere (v3 1 1 0) (f32 (-3)) ]>
    {[ 1%positive := sphere (v3 1 1 0) (f32 3) ]}.

(** A sphere of radius 0 at (1,2,3), and the same with radius -0. *)
Definition heap4 : heap := {[ 1%positive := sphere (v3 1 2 3) F32.zero ]}.
Definition heap5 : heap :=
  {[ 1%positive := sphere (v3 1 2 3) (F32.neg F32.zero) ]}.

(** The sphere of radius 16909 at the origin; the point (12859,10980,0)
    lies on it, 12859^2 + 10980^2 being 16909^2. *)
Definition heap6 : heap := {[ 1%positive := sphere (v3 0 0 0) (f32 16909) ]}.

(** The point cloud of the scenario: (0,0,0), (2,0,0), (0,2,0). *)
Definition cloud : list graphene_point3d_t := [pt 0 0 0; pt 2 0 0; pt 0 2 0].

(** A point whose first coordinate is NaN. *)
Definition nan_point : graphene_point3d_t := point3d S754_nan (f32 0) (f32 0).

(** The spheres of radius 239599 and of radius 54714 at the origin: the
    point (191684,143753,0) is outside the first, 191684^2 + 143753^2
    being 239599^2 + 64, and the point (22809,49733,0) is inside the
    second, 22809^2 + 49733^2 being 54714^2 - 26. *)
Definition heap7 : heap := {[ 1%positive := sphere (v3 0 0 0) (f32 239599) ]}.
Definition heap8 : heap := {[ 1%positive := sphere (v3 0 0 0) (f32 54714) ]}.

(** A sphere of infinite radius at the origin, and a point with an
    infinite coordinate. *)
Definition heap9 : heap :=
  {[ 1%positive := sphere (v3 0 0 0) (S754_infinity false) ]}.
Definition inf_point : graphene_point3d_t :=
  point3d (S754_infinity false) (f32 0) (f32 0).

(** A sphere of radius 0 whose center is that point. *)
Definition heap10 : heap :=
  {[ 1%positive := sphere (graphene_vec3_init (S754_infinity false) (f32 0) (f32 0))
                          F32.zero ]}.

(** ** Allocation *)

(** [calloc (1, sizeof (graphene_sphere_t))] of <stdlib.h>, with the answer
    of the allocator as an argument: no memory ([None], the call returns
    [NULL]), or an address that is not in use, whose storage is cleared. *)
Definition calloc_sphere (answer : option positive) : M sphere_ptr :=
  fun h => match answer with
           | None => Some (NULL, h)
           | Some l => match h !! l with
                       | None => Some (Ptr l, <[l := fresh_sphere]> h)
                       | Some _ => None
                       end
           end.

(** [graphene_sphere_alloc] *)
Definition graphene_sphere_alloc (answer : option positive) : M sphere_ptr :=
  calloc_sphere answer.

(** [graphene_sphere_free]: [free] of <stdlib.h> does nothing for [NULL]
    and releases an allocated sphere. *)
Definition graphene_sphere_free (s : sphere_ptr) : M unit :=
  fun h => match s with
           | NULL => Some (tt, h)
           | Ptr l => match h !! l with
                      | Some _ => Some (tt, delete l h)
                      | None => None
                      end
           end.

(** NaN, or a float with the sign bit 0. *)
Definition nan_or_positive (a : float) : bool :=
  F32.is_nan a || F32.sign_is false a.

(** A sphere at the origin whose radius is NaN. *)
Definition heap_nan : heap := {[ 1%positive := sphere (v3 0 0 0) S754_nan ]}.

(** A point with a NaN coordinate next to two proper points. *)
Definition cloud_nan : list graphene_point3d_t :=
  [pt 3 4 0; point3d S754_nan (f32 0) (f32 0); pt 1 0 0].

(** Three spheres that compare equal though the center of the second has
    -0 where the others have +0. *)
Definition heap_zeros : heap :=
  <[ 3%positive := sphere (v3 0 1 2) (f32 3) ]>
    (<[ 2%positive := sphere (graphene_vec3_init (F32.neg F32.zero) (f32 1) (f32 2))
                             (f32 3) ]>
       {[ 1%positive := sphere (v3 0 1 2) (f32 3) ]}).

(** ** graphene-private.h *)

(** The macros [MIN], [MAX] and [CLAMP] work at any arithmetic type; [lt]
    is the comparison [<] of that type, and [a > b] is [lt b a]. *)
Section Macros.

Context {T : Type} (lt : T -> T -> bool).

(** [MIN(a,b)]: [_a < _b ? _a : _b]. *)
Definition MIN (a b : T) : T := if lt a b then a else b.

(** [MAX(a,b)]: [_a > _b ? _a : _b]. *)
Definition MAX (a b : T) : T := if lt b a then a else b.

(** [CLAMP(v,min,max)]: [_v < _min ? _min : (_v > _max ? _max : _v)]. *)
Definition CLAMP (v min max : T) : T :=
  if lt v min then min else if lt max v then max else v.

End Macros.

(** [GRAPHENE_FLOAT_EPSILON], that is [FLT_EPSILON] of <float.h>: 2^-23. *)
Definition GRAPHENE_FLOAT_EPSILON : float := S754_finite false 8388608 (-46).

(** [graphene_fuzzy_equals(n1,n2,epsilon)] on three floats:
    [(__n1 > __n2 ? (__n1 - __n2) : (__n2 - __n1)) < __epsilon]. *)
Definition graphene_fuzzy_equals (n1 n2 epsilon : float) : bool :=
  F32.lt (if F32.lt n2 n1 then F32.sub n1 n2 else F32.sub n2 n1) epsilon.

(** Double precision: IEEE 754 binary64, for the [double] arithmetic of
    the interpolation functions. *)
Module F64.

Definition prec : Z := 53.
Definition emax : Z := 1024.

Definition double := spec_float.

(** The literals [0.0] and [1.0]. *)
Definition zero : double := S754_zero false.
Definition one : double := S754_finite false 4503599627370496 (-52).

Definition add : double -> double -> double := SFadd prec emax.
Definition sub : double -> double -> double := SFsub prec emax.
Definition mul : double -> double -> double := SFmul prec emax.

Definition eq : double -> double -> bool := SFeqb.

Definition is_nan : double -> bool := F32.is_nan.
Definition is_finite : double -> bool := F32.is_finite.

Definition valid : double -> bool := valid_binary prec emax.

(** The conversion of a [float] to [double]: the value, in the wider
    format. *)
Definition of_float (a : float) : double :=
  match a with
  | S754_finite s m e => binary_round prec emax s m e
  | _ => a
  end.

(** The conversion of a [double] to [float]: the value rounded to single
    precision. *)
Definition to_float (a : double) : float :=
  match a with
  | S754_finite s m e => binary_round F32.prec F32.emax s m e
  | _ => a
  end.

(** The conversion [(double) n] of an [int]. *)
Definition of_int (n : Z) : double := binary_normalize prec emax n 0 false.

(** The bounds of a 32-bit [int]. *)
Definition INT_MIN : Z := - 2 ^ 31.
Definition INT_MAX : Z := 2 ^ 31 - 1.

(** The conversion [(int) a]: the fraction is dropped; a value that does
    not fit an [int], an infinity or NaN has no defined result. *)
Definition to_int (a : double) : option Z :=
  match a with
  | S754_zero _ => Some 0
  | S754_finite s m e =>
      let n := cond_Zopp s (match e with
                            | Z0 => Zpos m
                            | Zpos k => Zpos m * 2 ^ Zpos k
                            | Zneg k => Zpos m / 2 ^ Zpos k
                            end) in
      if (INT_MIN <=? n) && (n <=? INT_MAX) then Some n else None
  | _ => None
  end.

End F64.

Abbreviation double := F64.double.

(** [graphene_flerpf]: [1.f] and the two floats are converted to [double]
    for the arithmetic, and the result is converted to [float]. *)
Definition graphene_flerpf (a b : float) (factor : double) : float :=
  F64.to_float
    (F64.add (F64.mul (F64.sub (F64.of_float (F32.of_Z 1)) factor)
                      (F64.of_float a))
             (F64.mul factor (F64.of_float b))).

(** [graphene_flerp] *)
Definition graphene_flerp (a b factor : double) : double :=
  F64.add (F64.mul (F64.sub F64.one factor) a) (F64.mul factor b).

(** [graphene_ilerp] *)
Definition graphene_ilerp (a b : Z) (factor : double) : option Z :=
  F64.to_int
    (F64.add (F64.mul (F64.sub F64.one factor) (F64.of_int a))
             (F64.mul factor (F64.of_int b))).

(** * Properties *)

(** ** Facts of single-precision arithmetic *)

(** The digits of a mantissa, and the two shifts that align and round. *)

Lemma digits2_pos_bounds p :
  2 ^ (Zpos (digits2_pos p) - 1) <= Zpos p < 2 ^ Zpos (digits2_pos p).
Proof.
  induction p as [p IH|p IH|]; simpl digits2_pos.
  - rewrite Pos2Z.inj_succ, (Pos2Z.inj_xI p).
    replace (Z.succ (Zpos (digits2_pos p)) - 1) with (Z.succ (Zpos (digits2_pos p) - 1)) by lia.
    rewrite (Z.pow_succ_r 2 (Zpos (digits2_pos p) - 1)) by lia.
    rewrite (Z.pow_succ_r 2 (Zpos (digits2_pos p))) by lia. lia.
  - rewrite Pos2Z.inj_succ, (Pos2Z.inj_xO p).
    replace (Z.succ (Zpos (digits2_pos p)) - 1) with (Z.succ (Zpos (digits2_pos p) - 1)) by lia.
    rewrite (Z.pow_succ_r 2 (Zpos (digits2_pos p) - 1)) by lia.
    rewrite (Z.pow_succ_r 2 (Zpos (digits2_pos p))) by lia. lia.
  - simpl. lia.
Qed.

Lemma digits2_pos_le p k :
  0 <= k -> Zpos p < 2 ^ k -> Zpos (digits2_pos p) <= k.
Proof.
  intros Hk Hp. pose proof (digits2_pos_bounds p) as [Hlo _].
  destruct (Z_le_gt_dec (Zpos (digits2_pos p)) k) as [|G]; [easy|].
  exfalso. assert (2 ^ k <= 2 ^ (Zpos (digits2_pos p) - 1))
    by (apply Z.pow_le_mono_r; lia). lia.
Qed.

Lemma digits2_pos_ge p k :
  2 ^ (k - 1) <= Zpos p -> k <= Zpos (digits2_pos p).
Proof.
  intros Hp. pose proof (digits2_pos_bounds p) as [_ Hhi].
  destruct (Z_le_gt_dec k (Zpos (digits2_pos p))) as [|G]; [easy|].
  exfalso. assert (2 ^ Zpos (digits2_pos p) <= 2 ^ (k - 1))
    by (apply Z.pow_le_mono_r; lia). lia.
Qed.

Lemma Pos_iter_xO m d : Zpos (Pos.iter xO m d) = Zpos m * 2 ^ Zpos d.
Proof.
  induction d as [|d IH] using Pos.peano_ind.
  - simpl. rewrite (Pos2Z.inj_xO m). lia.
  - rewrite Pos.iter_succ, Pos2Z.inj_succ, Z.pow_succ_r by lia.
    rewrite (Pos2Z.inj_xO (Pos.iter xO m d)), IH. ring.
Qed.

Lemma shl_align_value m e e' :
  e' <= e ->
  Zpos (fst (shl_align m e e')) = Zpos m * 2 ^ (e - e')
  /\ snd (shl_align m e e') = e'.
Proof.
  intros H. unfold shl_align.
  destruct (e' - e) as [|d|d] eqn:E; simpl; try lia.
  - replace (e - e') with 0 by lia. simpl. lia.
  - rewrite Pos_iter_xO. replace (e - e') with (Zpos d) by lia. easy.
Qed.

Lemma shl_align_exponent m e e' :
  snd (shl_align m e e') = Z.min e e'.
Proof.
  unfold shl_align. destruct (e' - e) as [|d|d] eqn:E; simpl; lia.
Qed.

(** A right shift by [n] digits divides the mantissa by [2 ^ n]. *)
Lemma shr_1_m r : 0 <= shr_m r -> shr_m (shr_1 r) = shr_m r / 2.
Proof.
  destruct r as [m r s]. simpl. intros Hm.
  destruct m as [|[p|p|]|p]; simpl; try lia; try reflexivity.
  - rewrite (Pos2Z.inj_xI p). apply Z.div_unique with 1; lia.
  - rewrite (Pos2Z.inj_xO p). apply Z.div_unique with 0; lia.
Qed.

Lemma iter_shr_1_m p r :
  0 <= shr_m r -> shr_m (SpecFloat.iter_pos shr_1 p r) = shr_m r / 2 ^ Zpos p.
Proof.
  revert r. induction p as [p IH|p IH|]; intros r Hm; simpl SpecFloat.iter_pos.
  - assert (H1 : 0 <= shr_m (shr_1 r)) by (rewrite shr_1_m by easy; apply Z.div_pos; lia).
    assert (H2 : 0 <= shr_m (SpecFloat.iter_pos shr_1 p (shr_1 r)))
      by (rewrite IH by easy; apply Z.div_pos; [easy|apply Z.pow_pos_nonneg; lia]).
    rewrite IH, IH, shr_1_m by easy.
    rewrite !Z.div_div by (try lia; apply Z.pow_pos_nonneg; lia).
    f_equal. rewrite (Pos2Z.inj_xI p), Z.pow_add_r, Z.pow_mul_r by lia.
    change (2 ^ 2) with 4. change (2 ^ 1) with 2.
    replace (4 ^ Zpos p) with (2 ^ Zpos p * 2 ^ Zpos p); [ring|].
    rewrite <- Z.pow_mul_l. reflexivity.
  - assert (H2 : 0 <= shr_m (SpecFloat.iter_pos shr_1 p r))
      by (rewrite IH by easy; apply Z.div_pos; [easy|apply Z.pow_pos_nonneg; lia]).
    rewrite IH, IH by easy.
    rewrite !Z.div_div by (try lia; apply Z.pow_pos_nonneg; lia).
    f_equal. rewrite (Pos2Z.inj_xO p), Z.pow_mul_r by lia.
    change (2 ^ 2) with 4.
    rewrite <- Z.pow_mul_l. reflexivity.
  - rewrite shr_1_m by easy. reflexivity.
Qed.

Lemma shr_m_nonneg r e n : 0 <= shr_m r -> 0 <= shr_m (fst (shr r e n)).
Proof.
  intros H. unfold shr. destruct n as [|p|p]; simpl; try easy.
  rewrite iter_shr_1_m by easy. apply Z.div_pos; [easy|].
  apply Z.pow_pos_nonneg; lia.
Qed.

Lemma shr_record_of_loc_m m l : shr_m (shr_record_of_loc m l) = m.
Proof. now destruct l as [|[]]. Qed.

Lemma shr_fexp_nonneg m e l :
  0 <= m -> 0 <= shr_m (fst (shr_fexp F32.prec F32.emax m e l)).
Proof.
  intros H. unfold shr_fexp. apply shr_m_nonneg.
  now rewrite shr_record_of_loc_m.
Qed.

Lemma shr_fexp_spec m e l :
  0 <= m ->
  let n := Z.max 0 (fexp F32.prec F32.emax (Zdigits2 m + e) - e) in
  shr_m (fst (shr_fexp F32.prec F32.emax m e l)) = m / 2 ^ n
  /\ snd (shr_fexp F32.prec F32.emax m e l) = e + n.
Proof.
  intros Hm n. subst n. unfold shr_fexp, shr.
  destruct (fexp F32.prec F32.emax (Zdigits2 m + e) - e) as [|q|q];
    simpl fst; simpl snd; rewrite ?shr_record_of_loc_m.
  - simpl. rewrite Z.div_1_r. lia.
  - rewrite iter_shr_1_m by (rewrite shr_record_of_loc_m; lia).
    rewrite shr_record_of_loc_m. replace (Z.max 0 (Zpos q)) with (Zpos q) by lia.
    easy.
  - replace (Z.max 0 (Zneg q)) with 0 by lia. simpl. rewrite Z.div_1_r. lia.
Qed.

Lemma round_nearest_even_bounds m l :
  m <= round_nearest_even m l <= m + 1.
Proof.
  unfold round_nearest_even. destruct l as [|[]]; try lia.
  destruct (Z.even m); lia.
Qed.

Lemma Zdigits2_Zpos p : Zdigits2 (Zpos p) = Zpos (digits2_pos p).
Proof. reflexivity. Qed.

(** A right shift that leaves at least 24 digits keeps the value positive. *)
Lemma shr_fexp_pos m e l :
  0 < m -> emin F32.prec F32.emax <= e ->
  0 < shr_m (fst (shr_fexp F32.prec F32.emax m e l))
  /\ emin F32.prec F32.emax <= snd (shr_fexp F32.prec F32.emax m e l).
Proof.
  intros Hm He. unfold shr_fexp, shr.
  destruct m as [|p|p]; try lia. rewrite Zdigits2_Zpos.
  pose proof (digits2_pos_bounds p) as [Hlo Hhi].
  set (d := Zpos (digits2_pos p)) in *.
  unfold fexp, emin, F32.prec, F32.emax in *.
  destruct (Z.max (d + e - 24) (3 - 128 - 24) - e) as [|n|n] eqn:En; simpl fst; simpl snd;
    rewrite ?shr_record_of_loc_m; try lia.
  rewrite iter_shr_1_m by (rewrite shr_record_of_loc_m; lia).
  rewrite shr_record_of_loc_m.
  assert (Hn : Zpos n = d - 24) by lia.
  rewrite Hn. split; [|lia].
  apply Z.lt_le_trans with (2 ^ 23); [reflexivity|].
  apply Z.div_le_lower_bound; [apply Z.pow_pos_nonneg; lia|].
  rewrite <- Z.pow_add_r by lia.
  replace (d - 24 + 23) with (d - 1) by lia. exact Hlo.
Qed.

(** ** Rounding: sign, zero and validity of the result *)

(** Rounding keeps the sign it is given and yields no NaN. *)
Lemma binary_round_aux_sign sx mx ex lx :
  0 <= mx -> F32.sign_is sx (binary_round_aux F32.prec F32.emax sx mx ex lx) = true.
Proof.
  intros Hm. unfold binary_round_aux.
  pose proof (shr_fexp_nonneg mx ex lx Hm) as H1.
  destruct (shr_fexp F32.prec F32.emax mx ex lx) as [mrs' e'] eqn:E1. simpl in H1.
  pose proof (round_nearest_even_bounds (shr_m mrs') (loc_of_shr_record mrs')) as B.
  pose proof (shr_fexp_nonneg (round_nearest_even (shr_m mrs') (loc_of_shr_record mrs'))
                e' loc_Exact ltac:(lia)) as H2.
  destruct (shr_fexp F32.prec F32.emax _ e' loc_Exact) as [mrs'' e''] eqn:E2. simpl in H2.
  destruct (shr_m mrs'') as [|q|q]; try lia; simpl.
  - apply eqb_reflx.
  - destruct (e'' <=? F32.emax - F32.prec); simpl; apply eqb_reflx.
Qed.

Lemma binary_round_aux_nonzero sx mx ex lx :
  0 < mx -> emin F32.prec F32.emax <= ex ->
  F32.nonzero (binary_round_aux F32.prec F32.emax sx mx ex lx) = true.
Proof.
  intros Hm He. unfold binary_round_aux.
  pose proof (shr_fexp_pos mx ex lx Hm He) as [H1 H1e].
  destruct (shr_fexp F32.prec F32.emax mx ex lx) as [mrs' e'] eqn:E1. simpl in H1, H1e.
  pose proof (round_nearest_even_bounds (shr_m mrs') (loc_of_shr_record mrs')) as B.
  pose proof (shr_fexp_pos (round_nearest_even (shr_m mrs') (loc_of_shr_record mrs'))
                e' loc_Exact ltac:(lia) H1e) as [H2 _].
  destruct (shr_fexp F32.prec F32.emax _ e' loc_Exact) as [mrs'' e''] eqn:E2. simpl in H2.
  destruct (shr_m mrs'') as [|q|q]; try lia; simpl.
  now destruct (e'' <=? F32.emax - F32.prec).
Qed.

Lemma binary_round_sign sx mx ex :
  F32.sign_is sx (binary_round F32.prec F32.emax sx mx ex) = true.
Proof.
  unfold binary_round.
  destruct (shl_align mx ex _) as [mz ez].
  now apply binary_round_aux_sign.
Qed.

Lemma binary_round_nonzero sx m e :
  -149 <= e ->
  F32.nonzero (binary_round F32.prec F32.emax sx m e) = true.
Proof.
  intros He. unfold binary_round.
  pose proof (shl_align_exponent m e
                (fexp F32.prec F32.emax (Zpos (digits2_pos m) + e))) as X.
  destruct (shl_align m e _) as [mz ez]. simpl in X.
  apply binary_round_aux_nonzero; [easy|].
  unfold fexp, emin, F32.prec, F32.emax in *. lia.
Qed.

Lemma binary_normalize_not_nan m e s :
  F32.is_nan (binary_normalize F32.prec F32.emax m e s) = false.
Proof.
  destruct m as [|q|q]; simpl; [reflexivity| |].
  - pose proof (binary_round_sign false q e) as H.
    now destruct (binary_round _ _ _ _ _).
  - pose proof (binary_round_sign true q e) as H.
    now destruct (binary_round _ _ _ _ _).
Qed.

Lemma sign_is_not_nan s a : F32.sign_is s a = true -> F32.is_nan a = false.
Proof. now destruct a. Qed.

(** A finite float is valid when its mantissa fits 24 digits, with the
    leading digit set unless the exponent is the smallest one. *)
Lemma valid_finite_bounds s m e :
  F32.valid (S754_finite s m e) = true ->
  -149 <= e <= 104 /\ Zpos m < 2 ^ 24 /\ (e = -149 \/ 2 ^ 23 <= Zpos m).
Proof.
  unfold F32.valid, valid_binary, bounded, canonical_mantissa, fexp, emin,
    F32.prec, F32.emax.
  rewrite andb_true_iff, Z.eqb_eq, Z.leb_le. intros [C B].
  pose proof (digits2_pos_bounds m) as [Hlo Hhi].
  set (d := Zpos (digits2_pos m)) in *.
  split; [lia|]. split.
  - apply Z.lt_le_trans with (2 ^ d); [easy|].
    apply Z.pow_le_mono_r; lia.
  - destruct (Z.eq_dec e (-149)) as [|N]; [now left|right].
    assert (D : d = 24) by lia. rewrite D in Hlo. exact Hlo.
Qed.

Lemma bounds_valid_finite s m e :
  -149 <= e <= 104 -> Zpos m < 2 ^ 24 -> (e = -149 \/ 2 ^ 23 <= Zpos m) ->
  F32.valid (S754_finite s m e) = true.
Proof.
  intros He Hm Hn.
  unfold F32.valid, valid_binary, bounded, canonical_mantissa, fexp, emin,
    F32.prec, F32.emax.
  rewrite andb_true_iff, Z.eqb_eq, Z.leb_le. split; [|lia].
  pose proof (digits2_pos_le m 24 ltac:(lia) Hm) as D.
  destruct Hn as [->|Hn]; [lia|].
  pose proof (digits2_pos_ge m 24 Hn). lia.
Qed.

(** Rounding yields a valid float when the mantissa comes with at least
    as many digits as the format keeps at its magnitude. *)
Lemma binary_round_aux_valid sx mx ex lx :
  0 < mx -> ex <= fexp F32.prec F32.emax (Zdigits2 mx + ex) ->
  F32.valid (binary_round_aux F32.prec F32.emax sx mx ex lx) = true.
Proof.
  intros Hm Hd. unfold binary_round_aux.
  destruct (shr_fexp_spec mx ex lx ltac:(lia)) as [M1 E1].
  destruct (shr_fexp F32.prec F32.emax mx ex lx) as [r1 e1]. simpl in M1, E1.
  destruct mx as [|p|p]; try lia. rewrite Zdigits2_Zpos in *.
  pose proof (digits2_pos_bounds p) as [Hlo Hhi].
  set (d := Zpos (digits2_pos p)) in *.
  unfold fexp, emin, F32.prec, F32.emax in Hd, M1, E1.
  set (n1 := Z.max 0 (Z.max (d + ex - 24) (3 - 128 - 24) - ex)) in *.
  assert (P1 : 0 < 2 ^ n1) by (apply Z.pow_pos_nonneg; lia).
  assert (A : shr_m r1 < 2 ^ 24).
  { rewrite M1. apply Z.div_lt_upper_bound; [easy|].
    rewrite <- Z.pow_add_r by lia.
    apply Z.lt_le_trans with (2 ^ d); [easy|]. apply Z.pow_le_mono_r; lia. }
  assert (A0 : 0 <= shr_m r1) by (rewrite M1; apply Z.div_pos; lia).
  assert (C : e1 = -149 \/ 2 ^ 23 <= shr_m r1).
  { destruct (Z.eq_dec e1 (-149)) as [|N]; [now left|right].
    assert (N1 : n1 = d - 24) by lia.
    rewrite M1, N1. apply Z.div_le_lower_bound; [apply Z.pow_pos_nonneg; lia|].
    rewrite <- Z.pow_add_r by lia.
    replace (d - 24 + 23) with (d - 1) by lia. exact Hlo. }
  pose proof (round_nearest_even_bounds (shr_m r1) (loc_of_shr_record r1)) as B.
  set (m2 := round_nearest_even (shr_m r1) (loc_of_shr_record r1)) in *.
  destruct (shr_fexp_spec m2 e1 loc_Exact ltac:(lia)) as [M3 E3].
  destruct (shr_fexp F32.prec F32.emax m2 e1 loc_Exact) as [r3 e3].
  simpl in M3, E3.
  destruct m2 as [|p2|p2] eqn:Em2; try lia.
  - rewrite Z.div_0_l in M3 by (apply Z.pow_nonzero; lia). now rewrite M3.
  - rewrite Zdigits2_Zpos in *. unfold fexp, emin, F32.prec, F32.emax in M3, E3.
    destruct (Z_lt_le_dec (Zpos p2) (2 ^ 24)) as [Lt|Ge].
    + pose proof (digits2_pos_le p2 24 ltac:(lia) Lt) as D2.
      replace (Z.max 0 _) with 0 in M3, E3 by lia.
      rewrite Z.div_1_r in M3. rewrite M3.
      change (F32.emax - F32.prec) with 104.
      destruct (e3 <=? 104) eqn:Le; [|reflexivity].
      apply Z.leb_le in Le. apply bounds_valid_finite; lia.
    + assert (Q : Zpos p2 = 2 ^ 24) by lia.
      pose proof (digits2_pos_le p2 25 ltac:(lia) ltac:(rewrite Q; reflexivity)) as D2.
      pose proof (digits2_pos_ge p2 25 ltac:(rewrite Q; reflexivity)) as D2'.
      replace (Z.max 0 _) with 1 in M3, E3 by lia.
      rewrite Q in M3. change (2 ^ 24 / 2 ^ 1) with 8388608 in M3. rewrite M3.
      change (F32.emax - F32.prec) with 104.
      destruct (e3 <=? 104) eqn:Le; [|reflexivity].
      apply Z.leb_le in Le. apply bounds_valid_finite; lia.
Qed.

(** [sqrtf] returns a valid float, whatever its argument. *)
Lemma F32_sqrtf_valid a : F32.valid (F32.sqrtf a) = true.
Proof.
  destruct a as [s|[]| |[] m e]; try reflexivity.
  unfold F32.sqrtf, SFsqrt, SFsqrt_core_binary.
  rewrite Zdigits2_Zpos.
  pose proof (digits2_pos_bounds m) as [Hlo Hhi].
  set (d := Zpos (digits2_pos m)) in *.
  set (K := Z.div2 (d + e + 1)).
  set (e' := Z.min (fexp F32.prec F32.emax K) (Z.div2 e)).
  set (s := e - 2 * e').
  assert (HK : 2 * K <= d + e + 1).
  { unfold K. rewrite Z.div2_div.
    pose proof (Z.mul_div_le (d + e + 1) 2 ltac:(lia)). lia. }
  assert (Hs : 0 <= s).
  { unfold s, e'. pose proof (Z.mul_div_le e 2 ltac:(lia)) as X.
    rewrite <- Z.div2_div in X. lia. }
  set (m' := match s with
             | 0 => Zpos m
             | Zpos _ => Z.shiftl (Zpos m) s
             | Zneg _ => 0
             end).
  assert (Hm' : m' = Zpos m * 2 ^ s).
  { unfold m'. destruct s as [|q|q] eqn:Es; try lia.
    apply Z.shiftl_mul_pow2. lia. }
  assert (Pm' : 0 < m') by (rewrite Hm'; apply Z.mul_pos_pos;
                            [lia | apply Z.pow_pos_nonneg; lia]).
  pose proof (Z.sqrtrem_sqrt m') as Q.
  destruct (Z.sqrtrem m') as [q r]. simpl in Q. subst q.
  assert (Pq : 0 < Z.sqrt m') by now apply Z.sqrt_pos.
  apply binary_round_aux_valid; [exact Pq|].
  destruct (Z.sqrt m') as [|q|q] eqn:Eq; try lia. rewrite Zdigits2_Zpos.
  unfold fexp, emin, F32.prec, F32.emax in *.
  destruct (Z_le_gt_dec e' (-149)) as [|G]; [lia|].
  assert (S46 : 46 <= d - 1 + s) by (unfold s; lia).
  assert (M46 : 2 ^ 46 <= m').
  { rewrite Hm'. apply Z.le_trans with (2 ^ (d - 1) * 2 ^ s).
    - rewrite <- Z.pow_add_r by lia. apply Z.pow_le_mono_r; lia.
    - apply Z.mul_le_mono_nonneg_r; [apply Z.pow_nonneg; lia | exact Hlo]. }
  assert (Q23 : 2 ^ 23 <= Zpos q).
  { rewrite <- Eq. change (2 ^ 23) with (Z.sqrt (2 ^ 46)).
    now apply Z.sqrt_le_mono. }
  pose proof (digits2_pos_ge q 24 Q23). lia.
Qed.

(** ** The operations *)

(** Squares and sums of squares carry the sign bit 0. *)
Lemma F32_mul_self_sign a :
  F32.is_nan a = false -> F32.sign_is false (F32.mul a a) = true.
Proof.
  destruct a as [[]|[]| |s m e]; try discriminate; try reflexivity.
  intros _. unfold F32.mul, SFmul.
  replace (xorb s s) with false by now destruct s.
  now apply binary_round_aux_sign.
Qed.

Lemma F32_add_sign a b :
  F32.sign_is false a = true -> F32.sign_is false b = true ->
  F32.sign_is false (F32.add a b) = true.
Proof.
  destruct a as [[]|[]| |[] ma ea], b as [[]|[]| |[] mb eb];
    try discriminate; try reflexivity.
  intros _ _. unfold F32.add, SFadd. simpl cond_Zopp.
  rewrite <- Pos2Z.inj_add. apply binary_round_sign.
Qed.

Lemma F32_sub_not_nan a b :
  F32.is_nan a = false -> F32.is_finite b = true ->
  F32.is_nan (F32.sub a b) = false.
Proof.
  destruct a as [[]|[]| |sa ma ea], b as [[]|[]| |sb mb eb];
    try discriminate; try reflexivity.
  intros _ _. apply binary_normalize_not_nan.
Qed.

Lemma F32_add_not_nan a b :
  F32.is_finite a = true -> F32.is_finite b = true ->
  F32.is_nan (F32.add a b) = false.
Proof.
  destruct a as [[]|[]| |sa ma ea], b as [[]|[]| |sb mb eb];
    try discriminate; try reflexivity.
  intros _ _. apply binary_normalize_not_nan.
Qed.

Lemma F32_mul_half_not_nan a :
  F32.is_nan a = false -> F32.is_nan (F32.mul a F32.half) = false.
Proof.
  destruct a as [[]|[]| |s m e]; try discriminate; try reflexivity.
  intros _. unfold F32.mul, F32.half, SFmul.
  apply (sign_is_not_nan (xorb s false)). now apply binary_round_aux_sign.
Qed.

Lemma F32_mul_neg_neg r : F32.mul (F32.neg r) (F32.neg r) = F32.mul r r.
Proof. now destruct r as [[]|[]| |[] m e]. Qed.

Lemma F32_mul_zero r : F32.eq r F32.zero = true -> F32.mul r r = F32.zero.
Proof. now destruct r as [[]|[]| |[] m e]. Qed.

Lemma F32_sub_diag a : F32.is_finite a = true -> F32.sub a a = F32.zero.
Proof.
  destruct a as [[]|[]| |s m e]; try discriminate; try reflexivity.
  intros _. unfold F32.sub, SFsub. now rewrite Z.sub_diag.
Qed.

Lemma F32_sub_finite sx mx ex sy my ey :
  F32.sub (S754_finite sx mx ex) (S754_finite sy my ey) =
    binary_normalize F32.prec F32.emax
      (cond_Zopp sx (Zpos (fst (shl_align mx ex (Z.min ex ey))))
       - cond_Zopp sy (Zpos (fst (shl_align my ey (Z.min ex ey)))))
      (Z.min ex ey) false.
Proof. reflexivity. Qed.

(** ** The order of the comparisons *)

Lemma SFcompare_refl a : F32.is_nan a = false -> SFcompare a a = Some Eq.
Proof.
  destruct a as [[]|[]| |[] m e]; try discriminate; try reflexivity; intros _;
    simpl; rewrite Z.compare_refl;
    change (Pos.compare_cont Eq m m) with (Pos.compare m m);
    now rewrite Pos.compare_refl.
Qed.

Lemma SFcompare_swap a b :
  SFcompare b a = option_map CompOpp (SFcompare a b).
Proof.
  destruct a as [[]|[]| |[] ma ea], b as [[]|[]| |[] mb eb];
    try reflexivity; simpl;
    rewrite (Z.compare_antisym ea eb);
    change (Pos.compare_cont Eq mb ma) with (Pos.compare mb ma);
    change (Pos.compare_cont Eq ma mb) with (Pos.compare ma mb);
    rewrite (Pos.compare_antisym ma mb);
    destruct (ea ?= eb); simpl; try reflexivity;
    now destruct (Pos.compare ma mb).
Qed.

Lemma SFcompare_not_nan a b :
  F32.is_nan a = false -> F32.is_nan b = false ->
  exists c, SFcompare a b = Some c.
Proof.
  destruct a, b; try discriminate; intros _ _; simpl; eauto.
Qed.

(** On valid finite floats the comparison is that of the mantissas
    brought to the smaller of the two exponents. *)
Lemma SFcompare_finite_valid sx mx ex sy my ey :
  F32.valid (S754_finite sx mx ex) = true ->
  F32.valid (S754_finite sy my ey) = true ->
  SFcompare (S754_finite sx mx ex) (S754_finite sy my ey) =
    Some (cond_Zopp sx (Zpos (fst (shl_align mx ex (Z.min ex ey))))
          ?= cond_Zopp sy (Zpos (fst (shl_align my ey (Z.min ex ey))))).
Proof.
  intros Vx Vy.
  apply valid_finite_bounds in Vx as (Ex & Mx & Nx).
  apply valid_finite_bounds in Vy as (Ey & My & Ny).
  destruct (shl_align_value mx ex (Z.min ex ey) ltac:(lia)) as [-> _].
  destruct (shl_align_value my ey (Z.min ex ey) ltac:(lia)) as [-> _].
  assert (P : forall a b, a < b -> 2 <= 2 ^ (b - a)).
  { intros a b L. change 2 with (2 ^ 1) at 1. apply Z.pow_le_mono_r; lia. }
  simpl SFcompare.
  change (Pos.compare_cont Eq mx my) with (Pos.compare mx my).
  rewrite (Pos2Z.inj_compare mx my).
  destruct (Z.compare_spec ex ey) as [->|L|L].
  - rewrite Z.min_id, Z.sub_diag, !Z.mul_1_r.
    destruct sx, sy; reflexivity.
  - rewrite Z.min_l, Z.sub_diag, Z.mul_1_r by lia.
    specialize (P ex ey L).
    assert (Zpos mx < Zpos my * 2 ^ (ey - ex)) by nia.
    destruct sx, sy; unfold cond_Zopp; f_equal; symmetry;
      first [apply Z.compare_lt_iff; lia | apply Z.compare_gt_iff; lia].
  - rewrite Z.min_r, Z.sub_diag, Z.mul_1_r by lia.
    specialize (P ey ex L).
    assert (Zpos my < Zpos mx * 2 ^ (ex - ey)) by nia.
    destruct sx, sy; unfold cond_Zopp; f_equal; symmetry;
      first [apply Z.compare_lt_iff; lia | apply Z.compare_gt_iff; lia].
Qed.

Lemma F32_le_refl a : F32.is_nan a = false -> F32.le a a = true.
Proof. intros N. unfold F32.le, SFleb. now rewrite SFcompare_refl. Qed.

Lemma F32_lt_le a b : F32.lt a b = true -> F32.le a b = true.
Proof.
  unfold F32.lt, F32.le, SFltb, SFleb. now destruct (SFcompare a b) as [[]|].
Qed.

Lemma F32_eq_le a b : F32.eq a b = true -> F32.le a b = true.
Proof.
  unfold F32.eq, F32.le, SFeqb, SFleb.
  now destruct (SFcompare a b) as [[]|].
Qed.

Lemma F32_le_zero r : F32.eq r F32.zero = true -> F32.le r F32.zero = true.
Proof. apply F32_eq_le. Qed.

Lemma F32_not_lt_le a b :
  F32.is_nan a = false -> F32.is_nan b = false ->
  F32.lt a b = false -> F32.le b a = true.
Proof.
  intros Na Nb. destruct (SFcompare_not_nan a b Na Nb) as [c E].
  unfold F32.lt, F32.le, SFltb, SFleb. rewrite (SFcompare_swap a b), E.
  now destruct c.
Qed.

Lemma F32_le_trans a b c :
  F32.le a b = true -> F32.le b c = true -> F32.le a c = true.
Proof.
  unfold F32.le, SFleb.
  destruct a as [sa|sa| |sa ma ea], b as [sb|sb| |sb mb eb],
           c as [sc|sc| |sc mc ec]; simpl; try discriminate; try reflexivity;
    repeat match goal with s : bool |- _ => destruct s end;
    simpl; try discriminate; try reflexivity;
    change (Pos.compare_cont Eq ma mb) with (Pos.compare ma mb);
    change (Pos.compare_cont Eq mb mc) with (Pos.compare mb mc);
    change (Pos.compare_cont Eq ma mc) with (Pos.compare ma mc);
    destruct (Z.compare_spec ea eb), (Z.compare_spec eb ec),
             (Z.compare_spec ea ec); try lia; subst; simpl;
    try discriminate; try reflexivity;
    destruct (Pos.compare_spec ma mb), (Pos.compare_spec mb mc),
             (Pos.compare_spec ma mc); simpl; try discriminate;
    try reflexivity; try lia.
Qed.

Lemma sign_false_le_zero d :
  F32.sign_is false d = true -> F32.le d F32.zero = true -> d = F32.zero.
Proof. now destruct d as [[]|[]| |[] m e]. Qed.

Lemma F32_zero_le d : F32.sign_is false d = true -> F32.le F32.zero d = true.
Proof. now destruct d as [[]|[]| |[] m e]. Qed.

Lemma F32_sign_true_cases a :
  F32.nonzero a = true -> F32.sign_is true a = true ->
  F32.lt a F32.zero = true /\ F32.lt F32.zero a = false
  /\ F32.eq a F32.zero = false.
Proof. now destruct a as [[]|[]| |[] m e]. Qed.

Lemma F32_sign_false_cases a :
  F32.nonzero a = true -> F32.sign_is false a = true ->
  F32.lt a F32.zero = false /\ F32.lt F32.zero a = true
  /\ F32.eq a F32.zero = false.
Proof. now destruct a as [[]|[]| |[] m e]. Qed.

(** The sign of a difference of two valid floats is their comparison. *)
Lemma F32_sub_sign x y :
  F32.valid x = true -> F32.valid y = true ->
  F32.lt (F32.sub x y) F32.zero = F32.lt x y
  /\ F32.lt F32.zero (F32.sub x y) = F32.lt y x
  /\ F32.eq (F32.sub x y) F32.zero = F32.eq x y && F32.is_finite y.
Proof.
  destruct x as [[]|[]| |sx mx ex], y as [[]|[]| |sy my ey];
    try (intros _ _; repeat split; reflexivity);
    try (intros _ _; destruct sx; repeat split; reflexivity);
    try (intros _ _; destruct sy; repeat split; reflexivity).
  intros Vx Vy. unfold F32.lt at 2 4, F32.eq at 2. unfold SFltb, SFeqb.
  rewrite (SFcompare_swap (S754_finite sx mx ex) (S754_finite sy my ey)).
  rewrite (SFcompare_finite_valid _ _ _ _ _ _ Vx Vy), F32_sub_finite.
  apply valid_finite_bounds in Vx as (Ex & _).
  apply valid_finite_bounds in Vy as (Ey & _).
  set (X := cond_Zopp sx _). set (Y := cond_Zopp sy _).
  destruct (Z.compare_spec X Y) as [E|L|L]; simpl option_map; cbv iota.
  - rewrite E, Z.sub_diag. repeat split.
  - destruct (X - Y) as [|q|q] eqn:D; try lia. simpl binary_normalize.
    apply F32_sign_true_cases;
      [apply binary_round_nonzero; lia | apply binary_round_sign].
  - destruct (X - Y) as [|q|q] eqn:D; try lia. simpl binary_normalize.
    apply F32_sign_false_cases;
      [apply binary_round_nonzero; lia | apply binary_round_sign].
Qed.

Create HintDb f32.
#[local] Hint Resolve F32_le_refl F32_lt_le F32_not_lt_le F32_le_trans
  sign_is_not_nan : f32.

(** One step of the running maximum. *)
Lemma fmaxf_step m d :
  F32.sign_is false m = true -> F32.sign_is false d = true ->
  F32.sign_is false (F32.fmaxf m d) = true
  /\ F32.le m (F32.fmaxf m d) = true
  /\ F32.le d (F32.fmaxf m d) = true
  /\ (F32.fmaxf m d = m \/ F32.fmaxf m d = d).
Proof.
  intros Sm Sd.
  pose proof (sign_is_not_nan _ _ Sm) as Nm.
  pose proof (sign_is_not_nan _ _ Sd) as Nd.
  unfold F32.fmaxf. rewrite Nm, Nd.
  destruct (F32.lt m d) eqn:L.
  - repeat split; auto with f32.
  - repeat split; auto with f32.
Qed.

(** ** Vectors, boxes and squared distances *)

(** A squared distance to a point with finite coordinates is no NaN and
    carries the sign bit 0. *)
Lemma distance_sq_sign c p :
  F32.is_nan (vec3_x c) = false -> F32.is_nan (vec3_y c) = false ->
  F32.is_nan (vec3_z c) = false -> point3d_finite p = true ->
  F32.sign_is false (distance_sq c (point3d_to_vec3 p)) = true.
Proof.
  intros Cx Cy Cz Fp. unfold point3d_finite in Fp.
  rewrite !andb_true_iff in Fp. destruct Fp as [[Fx Fy] Fz].
  unfold distance_sq, graphene_vec3_dot, graphene_vec3_subtract.
  repeat apply F32_add_sign; apply F32_mul_self_sign;
    now apply F32_sub_not_nan.
Qed.

Lemma distance_sq_diag c :
  vec3_finite c = true -> distance_sq c c = F32.zero.
Proof.
  unfold vec3_finite. rewrite !andb_true_iff. intros [[Fx Fy] Fz].
  unfold distance_sq, graphene_vec3_subtract.
  now rewrite (F32_sub_diag _ Fx), (F32_sub_diag _ Fy), (F32_sub_diag _ Fz).
Qed.

Lemma f32_min_finite a b :
  F32.is_finite a = true -> F32.is_finite b = true ->
  F32.is_finite (f32_min a b) = true.
Proof. unfold f32_min. now destruct (F32.lt b a). Qed.

Lemma f32_max_finite a b :
  F32.is_finite a = true -> F32.is_finite b = true ->
  F32.is_finite (f32_max a b) = true.
Proof. unfold f32_max. now destruct (F32.lt a b). Qed.

Lemma vec3_finite_iff v :
  vec3_finite v = true <->
  F32.is_finite (vec3_x v) = true /\ F32.is_finite (vec3_y v) = true
  /\ F32.is_finite (vec3_z v) = true.
Proof. unfold vec3_finite. rewrite !andb_true_iff. tauto. Qed.

Lemma point3d_to_vec3_finite p :
  point3d_finite p = true -> vec3_finite (point3d_to_vec3 p) = true.
Proof. easy. Qed.

Lemma box_expand_vec3_finite b v :
  vec3_finite (box_min b) = true -> vec3_finite (box_max b) = true ->
  vec3_finite v = true ->
  vec3_finite (box_min (box_expand_vec3 b v)) = true
  /\ vec3_finite (box_max (box_expand_vec3 b v)) = true.
Proof.
  rewrite !vec3_finite_iff. intros (?&?&?) (?&?&?) (?&?&?). simpl.
  repeat split; first [now apply f32_min_finite | now apply f32_max_finite].
Qed.

Lemma graphene_box_init_from_points_finite points :
  Forall (fun p => point3d_finite p = true) points ->
  vec3_finite (box_min (graphene_box_init_from_points points)) = true
  /\ vec3_finite (box_max (graphene_box_init_from_points points)) = true.
Proof.
  destruct points as [|p ps]; [now split|]. intros F.
  apply Forall_cons_iff in F as [Fp Fps]. simpl.
  assert (I : vec3_finite (box_min (box (point3d_to_vec3 p) (point3d_to_vec3 p))) = true
              /\ vec3_finite (box_max (box (point3d_to_vec3 p) (point3d_to_vec3 p))) = true)
    by (split; now apply point3d_to_vec3_finite).
  revert I. generalize (box (point3d_to_vec3 p) (point3d_to_vec3 p)).
  induction Fps as [|q qs Fq _ IH]; intros b [Bmin Bmax]; simpl; [now split|].
  apply IH. now apply box_expand_vec3_finite.
Qed.

Lemma chosen_center_not_nan points c :
  Forall (fun p => point3d_finite p = true) points ->
  (forall p, c = Some p -> point3d_finite p = true) ->
  F32.is_nan (vec3_x (chosen_center points c)) = false
  /\ F32.is_nan (vec3_y (chosen_center points c)) = false
  /\ F32.is_nan (vec3_z (chosen_center points c)) = false.
Proof.
  intros F Fc. destruct c as [p|]; simpl.
  - specialize (Fc p eq_refl). unfold point3d_finite in Fc.
    rewrite !andb_true_iff in Fc. destruct Fc as [[Fx Fy] Fz].
    unfold vec3_x, vec3_y, vec3_z; simpl.
    destruct (x p), (y p), (z p); try discriminate; now repeat split.
  - destruct (graphene_box_init_from_points_finite points F) as [Bmin Bmax].
    apply vec3_finite_iff in Bmin as (?&?&?).
    apply vec3_finite_iff in Bmax as (?&?&?).
    unfold vec3_x, vec3_y, vec3_z; simpl.
    repeat split; apply F32_mul_half_not_nan; now apply F32_add_not_nan.
Qed.

Section RunningMax.

Variable c : graphene_vec3_t.

(** The loop computes an upper bound of the squared distances that is
    its start value or one of them. *)
Lemma running_max_spec points m :
  F32.sign_is false m = true ->
  Forall (fun d => F32.sign_is false d = true) (sq_distances c points) ->
  F32.sign_is false (running_max c points m) = true
  /\ F32.le m (running_max c points m) = true
  /\ (forall d, In d (sq_distances c points) ->
                F32.le d (running_max c points m) = true)
  /\ (running_max c points m = m
      \/ In (running_max c points m) (sq_distances c points)).
Proof.
  revert m. induction points as [|p ps IH]; intros m Sm F; simpl.
  - split; [exact Sm|]. split; [eauto with f32|].
    split; [intros d []|now left].
  - simpl in F. apply Forall_cons_iff in F as [Sd F].
    destruct (fmaxf_step m _ Sm Sd) as (S1 & L1 & L2 & C1).
    destruct (IH _ S1 F) as (S2 & L3 & L4 & C2).
    split; [exact S2|]. split; [eauto with f32|]. split.
    + intros d [<-|I]; eauto with f32.
    + destruct C2 as [C2|C2]; [|now right; right].
      rewrite C2. destruct C1 as [->| ->]; [now left | now right; left].
Qed.

Lemma running_max_is_maximum points :
  points <> [] ->
  Forall (fun d => F32.sign_is false d = true) (sq_distances c points) ->
  is_maximum_of (running_max c points F32.zero) (sq_distances c points).
Proof.
  intros NE F.
  destruct (running_max_spec points F32.zero eq_refl F) as (_ & _ & U & C).
  split; [|exact U]. destruct C as [C|C]; [|exact C].
  destruct points as [|p ps]; [congruence|].
  assert (I : In (distance_sq c (point3d_to_vec3 p)) (sq_distances c (p :: ps)))
    by now left.
  pose proof (U _ I) as L. rewrite C in L |- *.
  apply Forall_cons_iff in F as [Sd _].
  now rewrite <- (sign_false_le_zero _ Sd L).
Qed.

End RunningMax.

(** ** Running the computations *)

Lemma load_Some (h : heap) l v :
  h !! l = Some v -> load (Ptr l) h = Some (v, h).
Proof. intros E. unfold load. now rewrite E. Qed.

Lemma load_center_Some (h : heap) l v :
  h !! l = Some v -> load_center (Ptr l) h = Some (center v, h).
Proof.
  intros E. unfold load_center, mbind, M_bind. now rewrite (load_Some h l v E).
Qed.

Lemma load_radius_Some (h : heap) l v :
  h !! l = Some v -> load_radius (Ptr l) h = Some (radius v, h).
Proof.
  intros E. unfold load_radius, mbind, M_bind. now rewrite (load_Some h l v E).
Qed.

Lemma store_center_Some (h : heap) l v c :
  h !! l = Some v ->
  store_center (Ptr l) c h = Some (tt, <[l := sphere c (radius v)]> h).
Proof. intros E. unfold store_center. now rewrite E. Qed.

Lemma store_radius_Some (h : heap) l v r :
  h !! l = Some v ->
  store_radius (Ptr l) r h = Some (tt, <[l := sphere (center v) r]> h).
Proof. intros E. unfold store_radius. now rewrite E. Qed.

Lemma bind_Some {A B} (m : M A) (k : A -> M B) (h h' : heap) a :
  m h = Some (a, h') -> (m ≫= k) h = k a h'.
Proof. intros E. unfold mbind, M_bind. now rewrite E. Qed.

(** One step of a computation whose first action is known to return. *)
Ltac step H := rewrite (bind_Some _ _ _ _ _ H).

Lemma ptr_eqb_eq a b : ptr_eqb a b = true <-> a = b.
Proof.
  destruct a as [|l], b as [|l']; simpl; split; try congruence; try easy.
  - intros E. apply Pos.eqb_eq in E. now subst.
  - intros E. inversion E. apply Pos.eqb_refl.
Qed.

Lemma ptr_eqb_neq a b : ptr_eqb a b = false <-> a <> b.
Proof.
  rewrite <- ptr_eqb_eq. destruct (ptr_eqb a b); split; congruence.
Qed.

Lemma max_radius_loop_run (h : heap) l v points m :
  h !! l = Some v ->
  max_radius_loop (Ptr l) points m h = Some (running_max (center v) points m, h).
Proof.
  intros E. revert m. induction points as [|p ps IH]; intros m; simpl.
  - reflexivity.
  - step (load_center_Some h l v E). apply IH.
Qed.

Lemma graphene_sphere_init_from_points_run (h : heap) l old points c :
  h !! l = Some old ->
  graphene_sphere_init_from_points (Ptr l) points c h =
    Some (Ptr l,
          <[l := sphere (chosen_center points c)
                        (F32.sqrtf (running_max (chosen_center points c)
                                                points F32.zero))]> h).
Proof.
  intros E. unfold graphene_sphere_init_from_points.
  set (ctr := chosen_center points c).
  assert (S1 : (match c with
                | Some p => store_center (Ptr l)
                              (graphene_vec3_init (x p) (y p) (z p))
                | None =>
                    let b := graphene_box_init_from_points points in
                    let q := graphene_box_get_center b in
                    store_center (Ptr l) (graphene_vec3_init (x q) (y q) (z q))
                end) h = Some (tt, <[l := sphere ctr (radius old)]> h)).
  { destruct c; exact (store_center_Some h l old _ E). }
  step S1.
  erewrite bind_Some
    by (eapply max_radius_loop_run; apply lookup_insert_eq).
  erewrite bind_Some by (eapply store_radius_Some; apply lookup_insert_eq).
  simpl. now rewrite insert_insert_eq.
Qed.

Lemma graphene_sphere_is_empty_run (h : heap) l v :
  h !! l = Some v ->
  graphene_sphere_is_empty (Ptr l) h = Some (F32.le (radius v) F32.zero, h).
Proof.
  intros E. unfold graphene_sphere_is_empty. simpl.
  now step (load_radius_Some h l v E).
Qed.

Lemma graphene_sphere_contains_point_run (h : heap) l v p :
  h !! l = Some v ->
  graphene_sphere_contains_point (Ptr l) p h =
    Some (F32.le (distance_sq (center v) (point3d_to_vec3 p))
                 (F32.mul (radius v) (radius v)), h).
Proof.
  intros E. unfold graphene_sphere_contains_point.
  step (load_radius_Some h l v E).
  step (load_center_Some h l v E).
  unfold point3d_to_vec3. now destruct (F32.le _ _).
Qed.

Lemma graphene_sphere_distance_run (h : heap) l v p :
  h !! l = Some v ->
  graphene_sphere_distance (Ptr l) p h =
    Some (F32.sub (F32.sqrtf (distance_sq (center v) (point3d_to_vec3 p)))
                  (radius v), h).
Proof.
  intros E. unfold graphene_sphere_distance.
  step (load_center_Some h l v E).
  now step (load_radius_Some h l v E).
Qed.

Lemma graphene_sphere_translate_run (h : heap) ls lr vs vr p :
  h !! ls = Some vs -> h !! lr = Some vr ->
  graphene_sphere_translate (Ptr ls) p (Ptr lr) h =
    Some (tt, <[lr := sphere (graphene_vec3_add (center vs) (point3d_to_vec3 p))
                             (radius vr)]> h).
Proof.
  intros Es Er. unfold graphene_sphere_translate.
  step (load_center_Some h ls vs Es).
  exact (store_center_Some h lr vr _ Er).
Qed.

(** The translated center is the component-wise sum, and a sphere other
    than [*res] keeps its value. *)
Lemma graphene_sphere_translate_frame (h h' : heap) ls lr vs vr p l :
  h !! ls = Some vs -> h !! lr = Some vr ->
  graphene_sphere_translate (Ptr ls) p (Ptr lr) h = Some (tt, h') ->
  (center <$> h' !! lr) =
    Some (graphene_vec3_init (F32.add (vec3_x (center vs)) (x p))
                             (F32.add (vec3_y (center vs)) (y p))
                             (F32.add (vec3_z (center vs)) (z p)))
  /\ (l <> lr -> h' !! l = h !! l).
Proof.
  intros Es Er R. rewrite (graphene_sphere_translate_run h ls lr vs vr p Es Er) in R.
  injection R as <-. split.
  - now rewrite lookup_insert_eq.
  - intros N. now rewrite lookup_insert_ne.
Qed.

Lemma graphene_sphere_equal_run (h : heap) la lb sa sb :
  la <> lb -> h !! la = Some sa -> h !! lb = Some sb ->
  graphene_sphere_equal (Ptr la) (Ptr lb) h =
    Some (F32.eq (radius sa) (radius sb)
          && graphene_simd4f_cmp_eq (value (center sa)) (value (center sb)), h).
Proof.
  intros N Ea Eb. unfold graphene_sphere_equal.
  assert (Q : ptr_eqb (Ptr la) (Ptr lb) = false)
    by (apply ptr_eqb_neq; congruence).
  rewrite Q. simpl.
  step (load_radius_Some h la sa Ea).
  step (load_radius_Some h lb sb Eb).
  unfold F32.ne. destruct (SFeqb (radius sa) (radius sb)) eqn:R;
    unfold F32.eq; rewrite R; simpl; [|reflexivity].
  step (load_center_Some h la sa Ea).
  now step (load_center_Some h lb sb Eb).
Qed.

(** ** Comparisons with NaN and equal floats *)

Lemma F32_le_nan_r a b : F32.is_nan b = true -> F32.le a b = false.
Proof. destruct b; try discriminate. now destruct a. Qed.

Lemma F32_le_nan_l a b : F32.is_nan a = true -> F32.le a b = false.
Proof. now destruct a. Qed.

Lemma F32_mul_nan a : F32.is_nan a = true -> F32.mul a a = S754_nan.
Proof. now destruct a. Qed.

Lemma F32_sub_nan_r a b : F32.is_nan b = true -> F32.sub a b = S754_nan.
Proof. destruct b; try discriminate. now destruct a. Qed.

(** Floats that compare equal are the same float, or two zeros. *)
Lemma F32_eq_cases a b :
  F32.eq a b = true ->
  a = b \/ exists s s', a = S754_zero s /\ b = S754_zero s'.
Proof.
  unfold F32.eq, SFeqb.
  destruct a as [sa|sa| |sa ma ea], b as [sb|sb| |sb mb eb]; simpl;
    try discriminate; try (destruct sa; discriminate);
    try (destruct sb; discriminate).
  - intros _. right. eauto.
  - destruct sa, sb; try discriminate; now left.
  - destruct sa, sb; try discriminate;
      destruct (Z.compare_spec ea eb); try discriminate; subst;
      change (Pos.compare_cont Eq ma mb) with (Pos.compare ma mb);
      destruct (Pos.compare_spec ma mb); try discriminate; subst;
      intros _; now left.
Qed.

Lemma F32_eq_sym a b : F32.eq a b = F32.eq b a.
Proof.
  unfold F32.eq, SFeqb. rewrite (SFcompare_swap b a).
  now destruct (SFcompare b a) as [[]|].
Qed.

Lemma F32_eq_trans a b c :
  F32.eq a b = true -> F32.eq b c = true -> F32.eq a c = true.
Proof.
  intros H1 H2.
  destruct (F32_eq_cases a b H1) as [->|(s & s' & -> & ->)]; [exact H2|].
  destruct (F32_eq_cases _ c H2) as [<-|(t & t' & E & ->)]; reflexivity.
Qed.

Lemma F32_eq_mul_self a b :
  F32.eq a b = true -> F32.mul a a = F32.mul b b.
Proof.
  intros H. destruct (F32_eq_cases a b H) as [->|(s & s' & -> & ->)];
    [reflexivity | now destruct s, s'].
Qed.

Lemma F32_eq_le_zero a b :
  F32.eq a b = true -> F32.le a F32.zero = F32.le b F32.zero.
Proof.
  intros H. destruct (F32_eq_cases a b H) as [->|(s & s' & -> & ->)];
    reflexivity.
Qed.

(** The square of a difference does not see the sign of a zero. *)
Lemma F32_eq_sub_sq a b p :
  F32.eq a b = true ->
  F32.mul (F32.sub a p) (F32.sub a p) = F32.mul (F32.sub b p) (F32.sub b p).
Proof.
  intros H. destruct (F32_eq_cases a b H) as [->|(s & s' & -> & ->)];
    [reflexivity|].
  destruct p as [[]|[]| |sp mp ep], s, s'; reflexivity.
Qed.

Lemma distance_sq_eq c c' p :
  graphene_simd4f_cmp_eq (value c) (value c') = true ->
  distance_sq c p = distance_sq c' p.
Proof.
  unfold graphene_simd4f_cmp_eq. rewrite !andb_true_iff. intros [[Hx Hy] Hz].
  unfold distance_sq, graphene_vec3_dot, graphene_vec3_subtract.
  unfold vec3_x, vec3_y, vec3_z; simpl.
  now rewrite (F32_eq_sub_sq _ _ _ Hx), (F32_eq_sub_sq _ _ _ Hy),
    (F32_eq_sub_sq _ _ _ Hz).
Qed.

(** ** Squared distances and the running maximum, whatever the input *)

Lemma F32_mul_self_nan_or_positive a : nan_or_positive (F32.mul a a) = true.
Proof.
  unfold nan_or_positive. destruct (F32.is_nan a) eqn:N.
  - now rewrite (F32_mul_nan a N).
  - rewrite (F32_mul_self_sign a N). apply orb_true_r.
Qed.

Lemma F32_add_nan_or_positive a b :
  nan_or_positive a = true -> nan_or_positive b = true ->
  nan_or_positive (F32.add a b) = true.
Proof.
  unfold nan_or_positive. intros Ha Hb.
  destruct (F32.is_nan a) eqn:Na; [now destruct a|].
  destruct (F32.is_nan b) eqn:Nb;
    [destruct b; try discriminate; now destruct a|].
  simpl in Ha, Hb. rewrite (F32_add_sign a b Ha Hb). apply orb_true_r.
Qed.

Lemma distance_sq_nan_or_positive c p :
  nan_or_positive (distance_sq c p) = true.
Proof.
  unfold distance_sq, graphene_vec3_dot.
  repeat apply F32_add_nan_or_positive; apply F32_mul_self_nan_or_positive.
Qed.

(** One step of the loop from a maximum with the sign bit 0: the result
    has the sign bit 0, is not below the old maximum nor below the new
    value unless that is NaN, and is one of the two. *)
Lemma fmaxf_step_any m d :
  F32.sign_is false m = true -> nan_or_positive d = true ->
  F32.sign_is false (F32.fmaxf m d) = true
  /\ F32.le m (F32.fmaxf m d) = true
  /\ (F32.is_nan d = false -> F32.le d (F32.fmaxf m d) = true)
  /\ (F32.fmaxf m d = m \/ F32.fmaxf m d = d /\ F32.is_nan d = false).
Proof.
  intros Sm Nd. unfold nan_or_positive in Nd.
  destruct (F32.is_nan d) eqn:N.
  - unfold F32.fmaxf. rewrite (sign_is_not_nan _ _ Sm), N.
    split; [exact Sm|]. split; [eauto with f32|].
    split; [discriminate | now left].
  - simpl in Nd. destruct (fmaxf_step m d Sm Nd) as (S1 & L1 & L2 & E).
    split; [exact S1|]. split; [exact L1|]. split; [now intros _|].
    destruct E as [E|E]; [now left | now right].
Qed.

Lemma F32_le_antisym a b :
  F32.sign_is false a = true -> F32.sign_is false b = true ->
  F32.le a b = true -> F32.le b a = true -> a = b.
Proof.
  intros Sa Sb. unfold F32.le, SFleb. rewrite (SFcompare_swap a b).
  destruct (SFcompare a b) as [[]|] eqn:C; simpl; try discriminate.
  intros _ _.
  assert (Q : F32.eq a b = true) by (unfold F32.eq, SFeqb; now rewrite C).
  destruct (F32_eq_cases a b Q) as [->|(s & s' & -> & ->)]; [reflexivity|].
  destruct s, s'; try discriminate; reflexivity.
Qed.

Lemma fmaxf_swap m a b :
  F32.sign_is false m = true ->
  nan_or_positive a = true -> nan_or_positive b = true ->
  F32.fmaxf (F32.fmaxf m a) b = F32.fmaxf (F32.fmaxf m b) a.
Proof.
  intros Sm Na Nb.
  destruct (fmaxf_step_any m a Sm Na) as (S1 & M1 & A1 & C1).
  destruct (fmaxf_step_any m b Sm Nb) as (S2 & M2 & B2 & C2).
  destruct (fmaxf_step_any _ b S1 Nb) as (S3 & M3 & B3 & C3).
  destruct (fmaxf_step_any _ a S2 Na) as (S4 & M4 & A4 & C4).
  set (x := F32.fmaxf (F32.fmaxf m a) b) in *.
  set (y := F32.fmaxf (F32.fmaxf m b) a) in *.
  assert (Mx : F32.le m x = true) by eauto with f32.
  assert (My : F32.le m y = true) by eauto with f32.
  assert (Ax : F32.is_nan a = false -> F32.le a x = true) by eauto with f32.
  assert (By : F32.is_nan b = false -> F32.le b y = true) by eauto with f32.
  apply F32_le_antisym; try assumption.
  - destruct C3 as [->|[-> N]]; [|now apply By].
    destruct C1 as [->|[-> N]]; [exact My | now apply A4].
  - destruct C4 as [->|[-> N]]; [|now apply Ax].
    destruct C2 as [->|[-> N]]; [exact Mx | now apply B3].
Qed.

Lemma running_max_sign c points m :
  F32.sign_is false m = true ->
  F32.sign_is false (running_max c points m) = true.
Proof.
  revert m. induction points as [|p ps IH]; intros m Sm; simpl; [exact Sm|].
  apply IH.
  now destruct (fmaxf_step_any m _ Sm (distance_sq_nan_or_positive c
                                         (point3d_to_vec3 p))).
Qed.

Lemma running_max_Permutation c points points' m :
  F32.sign_is false m = true -> Permutation points points' ->
  running_max c points m = running_max c points' m.
Proof.
  intros Sm P. revert m Sm.
  induction P as [|p l l' _ IH|p q l|l l' l'' _ IH1 _ IH2]; intros m Sm; simpl.
  - reflexivity.
  - apply IH.
    now destruct (fmaxf_step_any m _ Sm (distance_sq_nan_or_positive c
                                           (point3d_to_vec3 p))).
  - f_equal. apply fmaxf_swap; auto using distance_sq_nan_or_positive.
  - now rewrite IH1, IH2.
Qed.

Lemma F32_sqrtf_sign a :
  F32.sign_is false a = true -> F32.sign_is false (F32.sqrtf a) = true.
Proof.
  destruct a as [[]|[]| |[] m e]; try discriminate; try reflexivity.
  intros _. unfold F32.sqrtf, SFsqrt, SFsqrt_core_binary.
  match goal with
  | |- context [Z.sqrtrem ?a] =>
      pose proof (Z.sqrtrem_sqrt a) as S; destruct (Z.sqrtrem a) as [q r]
  end.
  simpl in S. subst q. apply binary_round_aux_sign, Z.sqrt_nonneg.
Qed.

(** [distance_sq] of a center and a point is the squared Euclidean
    distance. *)
Lemma distance_sq_euclidean c p :
  distance_sq c (point3d_to_vec3 p) = squared_euclidean_distance c p.
Proof. reflexivity. Qed.

Lemma sq_distances_euclidean c points :
  sq_distances c points = map (squared_euclidean_distance c) points.
Proof. reflexivity. Qed.

(** The running maximum is the maximum of its start and of the squared
    distances that are not NaN. *)
Lemma running_max_without_nan c points m :
  F32.sign_is false m = true ->
  is_maximum_of (running_max c points m)
    (m :: without_nan (sq_distances c points)).
Proof.
  revert m. induction points as [|p ps IH]; intros m Sm.
  - split; [now left|]. intros d [<-|[]]. eauto with f32.
  - set (d0 := distance_sq c (point3d_to_vec3 p)).
    destruct (fmaxf_step_any m d0 Sm (distance_sq_nan_or_positive _ _))
      as (S1 & L1 & L2 & C1).
    destruct (IH _ S1) as [I M]. fold d0 in I, M.
    change (running_max c (p :: ps) m)
      with (running_max c ps (F32.fmaxf m d0)).
    change (sq_distances c (p :: ps)) with (d0 :: sq_distances c ps).
    unfold without_nan in *. simpl List.filter.
    assert (Top : F32.le (F32.fmaxf m d0) (running_max c ps (F32.fmaxf m d0))
                  = true) by (apply M; now left).
    destruct (F32.is_nan d0) eqn:N; simpl negb; cbv iota.
    + destruct C1 as [C1|[_ C1]]; [|discriminate]. rewrite C1 in *.
      split; [exact I | exact M].
    + split.
      * destruct I as [I|I]; [|now right; right]. rewrite <- I.
        destruct C1 as [C1|[C1 _]]; rewrite C1; [now left | now right; left].
      * intros d [<-|[<-|D]].
        -- eauto with f32.
        -- specialize (L2 eq_refl). eauto with f32.
        -- apply M. now right.
Qed.

(** The difference of a float and itself, and the squared distance of a
    vector and itself. *)
Lemma F32_sub_diag_cases a :
  F32.sub a a = if F32.is_finite a then F32.zero else S754_nan.
Proof.
  destruct (F32.is_finite a) eqn:F; [now apply F32_sub_diag|].
  now destruct a as [| []| |].
Qed.

Lemma distance_sq_diag_cases c :
  distance_sq c c = if vec3_finite c then F32.zero else S754_nan.
Proof.
  unfold distance_sq, graphene_vec3_subtract, graphene_vec3_dot, vec3_finite.
  cbn [vec3_x vec3_y vec3_z graphene_vec3_init value lane_x lane_y lane_z].
  rewrite !F32_sub_diag_cases.
  now destruct (F32.is_finite (vec3_x c)), (F32.is_finite (vec3_y c)),
    (F32.is_finite (vec3_z c)).
Qed.

(** ** graphene_sphere_init *)

(** C9: [graphene_sphere_init] on an allocated sphere always returns, and
    returns its first argument; the center written is (0,0,0) for a [NULL]
    center and the three coordinates of the point otherwise; the radius
    written is the argument itself, whatever its sign or value. *)
Theorem graphene_sphere_init_stores (h : heap) l old c r :
  h !! l = Some old ->
  graphene_sphere_init (Ptr l) c r h =
    Some (Ptr l,
          <[l := sphere
                   match c with
                   | None => graphene_vec3_init F32.zero F32.zero F32.zero
                   | Some p => graphene_vec3_init (x p) (y p) (z p)
                   end r]> h).
Proof.
  intros E. fold (center_of c). unfold graphene_sphere_init.
  assert (S1 : (match c with
                | None => store_center (Ptr l)
                            (graphene_vec3_init_from_vec3 graphene_vec3_zero)
                | Some p => store_center (Ptr l)
                              (graphene_vec3_init (x p) (y p) (z p))
                end) h = Some (tt, <[l := sphere (center_of c) (radius old)]> h)).
  { destruct c; exact (store_center_Some h l old _ E). }
  step S1.
  erewrite bind_Some by (eapply store_radius_Some; apply lookup_insert_eq).
  simpl. now rewrite insert_insert_eq.
Qed.

Lemma graphene_sphere_init_stores_witness :
  heap1 !! 1%positive = Some fresh_sphere /\
  graphene_sphere_init (Ptr 1) (Some (pt 1 2 3)) (f32 (-5)) heap1 =
    Some (Ptr 1, <[1%positive := sphere (v3 1 2 3) (f32 (-5))]> heap1).
Proof.
  split; [reflexivity|].
  apply (graphene_sphere_init_stores heap1 1%positive fresh_sphere
           (Some (pt 1 2 3)) (f32 (-5))).
  reflexivity.
Defined.

(** ** graphene_sphere_init_from_points *)

(** C8: for an array without points, [graphene_sphere_init_from_points]
    writes the radius 0, so that the sphere is empty, and the center is
    (0,0,0) without an explicit center and the explicit center otherwise. *)
Theorem graphene_sphere_init_from_points_nil (h : heap) l old c :
  h !! l = Some old ->
  let h' := <[l := sphere
                      match c with
                      | None => graphene_vec3_init F32.zero F32.zero F32.zero
                      | Some p => graphene_vec3_init (x p) (y p) (z p)
                      end F32.zero]> h in
  graphene_sphere_init_from_points (Ptr l) [] c h = Some (Ptr l, h')
  /\ graphene_sphere_is_empty (Ptr l) h' = Some (true, h').
Proof.
  intros E h'. split.
  - rewrite (graphene_sphere_init_from_points_run h l old [] c E).
    now destruct c.
  - unfold h'. erewrite graphene_sphere_is_empty_run by apply lookup_insert_eq.
    reflexivity.
Qed.

Lemma graphene_sphere_init_from_points_nil_witness :
  heap2 !! 1%positive = Some (sphere (v3 0 0 0) (f32 1)) /\
  graphene_sphere_init_from_points (Ptr 1) [] None heap2 =
    Some (Ptr 1, <[1%positive := sphere (v3 0 0 0) F32.zero]> heap2).
Proof.
  split; [reflexivity|].
  apply (graphene_sphere_init_from_points_nil heap2 1%positive
           (sphere (v3 0 0 0) (f32 1)) None).
  reflexivity.
Defined.

(** C4, as the claim states it, fails for a point with a NaN coordinate:
    for the single point (NaN,0,0) and the explicit center (0,0,0) the
    squared Euclidean distance of the point is NaN, the squared distances
    have no maximum, and the radius that is stored is 0, not the square
    root of NaN. *)
Lemma graphene_sphere_init_from_points_nan_point :
  graphene_sphere_init_from_points (Ptr 1) [nan_point] (Some (pt 0 0 0)) heap1
    = Some (Ptr 1, <[1%positive := sphere (v3 0 0 0) F32.zero]> heap1)
  /\ map (squared_euclidean_distance (v3 0 0 0)) [nan_point] = [S754_nan]
  /\ F32.sqrtf S754_nan <> F32.zero
  /\ ~ (exists m, is_maximum_of m
                    (map (squared_euclidean_distance (v3 0 0 0)) [nan_point])).
Proof.
  split; [reflexivity|]. split; [reflexivity|]. split; [discriminate|].
  intros (m & [<-|[]] & L). specialize (L S754_nan (or_introl eq_refl)).
  discriminate.
Qed.

(** C4, amended: [graphene_sphere_init_from_points] takes as center the
    explicit center when there is one, and otherwise the center of the
    bounding box of the points; the radius is [sqrtf m], where [m] is the
    maximum of 0 and of those squared Euclidean distances from that center
    to the points that are not NaN.  When there is a point and no squared
    distance is NaN, [m] is the maximum, over all the points, of the
    squared Euclidean distance from the center; a maximum over all the
    points exists in no other case, and no squared distance is NaN when
    the points and the explicit center have finite coordinates. *)
Theorem graphene_sphere_init_from_points_center_radius
    (h : heap) l old points c :
  h !! l = Some old ->
  exists ctr m,
    graphene_sphere_init_from_points (Ptr l) points c h =
      Some (Ptr l, <[l := sphere ctr (F32.sqrtf m)]> h)
    /\ ctr = match c with
             | Some p => graphene_vec3_init (x p) (y p) (z p)
             | None =>
                 let q := graphene_box_get_center
                            (graphene_box_init_from_points points) in
                 graphene_vec3_init (x q) (y q) (z q)
             end
    /\ (points = [] -> m = F32.zero)
    /\ is_maximum_of m
         (F32.zero
          :: without_nan (map (squared_euclidean_distance ctr) points))
    /\ (points <> [] ->
        Forall (fun d => F32.is_nan d = false)
          (map (squared_euclidean_distance ctr) points) ->
        is_maximum_of m (map (squared_euclidean_distance ctr) points))
    /\ (forall m', is_maximum_of m'
                     (map (squared_euclidean_distance ctr) points) ->
        Forall (fun d => F32.is_nan d = false)
          (map (squared_euclidean_distance ctr) points))
    /\ (Forall (fun p => point3d_finite p = true) points ->
        (forall p, c = Some p -> point3d_finite p = true) ->
        Forall (fun d => F32.is_nan d = false)
          (map (squared_euclidean_distance ctr) points)).
Proof.
  intros E.
  exists (chosen_center points c),
         (running_max (chosen_center points c) points F32.zero).
  split; [apply (graphene_sphere_init_from_points_run h l old points c E)|].
  split; [reflexivity|]. split; [now intros ->|].
  pose proof (chosen_center_not_nan points c) as NN.
  revert NN. generalize (chosen_center points c). intros ctr NN.
  rewrite <- sq_distances_euclidean.
  split; [now apply running_max_without_nan|].
  split; [|split].
  - intros NE F. apply running_max_is_maximum; [exact NE|].
    unfold sq_distances in *. clear NE NN.
    induction points as [|p ps IH]; simpl in *; constructor.
    + apply Forall_inv in F.
      pose proof (distance_sq_nan_or_positive ctr (point3d_to_vec3 p)) as P.
      unfold nan_or_positive in P. now rewrite F in P.
    + apply IH. now apply Forall_inv_tail in F.
  - intros m' [_ L]. clear NN. unfold sq_distances in *.
    induction points as [|p ps IH]; simpl in *; constructor.
    + specialize (L _ (or_introl eq_refl)).
      destruct (F32.is_nan (distance_sq ctr (point3d_to_vec3 p))) eqn:N;
        [|reflexivity].
      now rewrite (F32_le_nan_l _ m' N) in L.
    + apply IH. intros d D. apply L. now right.
  - intros F Fc. destruct (NN F Fc) as (Nx & Ny & Nz).
    unfold sq_distances. clear NN Fc.
    induction F as [|p ps Fp _ IH]; simpl; constructor; [|exact IH].
    apply (sign_is_not_nan false). now apply distance_sq_sign.
Qed.

Lemma graphene_sphere_init_from_points_center_radius_witness :
  heap1 !! 1%positive = Some fresh_sphere /\
  exists ctr m,
    graphene_sphere_init_from_points (Ptr 1) cloud None heap1 =
      Some (Ptr 1, <[1%positive := sphere ctr (F32.sqrtf m)]> heap1)
    /\ ctr = (let q := graphene_box_get_center
                         (graphene_box_init_from_points cloud) in
              graphene_vec3_init (x q) (y q) (z q))
    /\ is_maximum_of m (map (squared_euclidean_distance ctr) cloud).
Proof.
  split; [reflexivity|].
  destruct (graphene_sphere_init_from_points_center_radius heap1 1%positive
              fresh_sphere cloud None eq_refl)
    as (ctr & m & R & C & _ & _ & Mx & _ & Fin).
  exists ctr, m. split; [exact R|]. split; [exact C|].
  apply Mx; [discriminate|].
  apply Fin; [repeat constructor | discriminate].
Defined.

(** On coordinates that need no rounding the squared Euclidean distance
    is the exact one: from (1,1,1) to (4,5,13) it is 3^2 + 4^2 + 12^2. *)
Example squared_euclidean_distance_3_4_12 :
  squared_euclidean_distance (v3 1 1 1) (pt 4 5 13) = f32 169
  /\ distance_sq (v3 1 1 1) (point3d_to_vec3 (pt 4 5 13)) = f32 169
  /\ 3 * 3 + 4 * 4 + 12 * 12 = 169.
Proof. repeat split. Qed.

(** The scenario of the spec: the center is (1,1,0) and the radius is
    [sqrtf 2], the float 11863283 * 2^-23 = 1.41421354.... *)
Example cloud_center_radius :
  graphene_sphere_init_from_points (Ptr 1) cloud None heap1 =
    Some (Ptr 1, <[1%positive := sphere (v3 1 1 0)
                                   (S754_finite false 11863283 (-23))]> heap1).
Proof. reflexivity. Qed.

(** C1, where the code departs from the claim: for the point cloud
    (0,0,0), (2,0,0), (0,2,0) and no explicit center the sphere gets the
    center (1,1,0) and the radius [sqrtf 2]; every point is at squared
    distance 2 from the center, the product of the radius with itself
    rounds to the float below 2, and [graphene_sphere_contains_point]
    returns false for each of the three points. *)
Theorem graphene_sphere_init_from_points_misses_cloud :
  let h' := <[1%positive := sphere (v3 1 1 0) (F32.sqrtf (f32 2))]> heap1 in
  graphene_sphere_init_from_points (Ptr 1) cloud None heap1 = Some (Ptr 1, h')
  /\ Forall (fun p => graphene_sphere_contains_point (Ptr 1) p h'
                      = Some (false, h')) cloud
  /\ Forall (fun p => distance_sq (v3 1 1 0) (point3d_to_vec3 p) = f32 2) cloud
  /\ F32.lt (F32.mul (F32.sqrtf (f32 2)) (F32.sqrtf (f32 2))) (f32 2) = true.
Proof.
  split; [reflexivity|].
  split; [|split; [|reflexivity]]; repeat constructor.
Qed.

(** The same with (1,1,0) given as the explicit center: the outcome does
    not rest on how the bounding box is computed. *)
Example cloud_explicit_center_misses :
  let h' := <[1%positive := sphere (v3 1 1 0) (F32.sqrtf (f32 2))]> heap1 in
  graphene_sphere_init_from_points (Ptr 1) cloud (Some (pt 1 1 0)) heap1
    = Some (Ptr 1, h')
  /\ graphene_sphere_contains_point (Ptr 1) (pt 0 0 0) h' = Some (false, h').
Proof. split; reflexivity. Qed.

(** ** graphene_sphere_is_empty *)

(** C2, as the claim states it, fails: for a [NULL] sphere
    [graphene_sphere_is_empty] returns false, not true. *)
Lemma graphene_sphere_is_empty_null_false :
  graphene_sphere_is_empty NULL heap1 = Some (false, heap1)
  /\ graphene_sphere_is_empty NULL heap1 <> Some (true, heap1).
Proof. split; [reflexivity | discriminate]. Qed.

(** C2, amended: [graphene_sphere_is_empty] returns true if and only if the
    pointer is not [NULL] and the radius of the sphere is [<= 0]; for
    [NULL] it returns false. *)
Theorem graphene_sphere_is_empty_iff (h : heap) (s : sphere_ptr) :
  valid_ptr h s ->
  exists b, graphene_sphere_is_empty s h = Some (b, h)
    /\ (b = true <->
        exists l v, s = Ptr l /\ h !! l = Some v
                    /\ F32.le (radius v) F32.zero = true)
    /\ (s = NULL -> b = false).
Proof.
  destruct s as [|l]; simpl.
  - intros _. exists false. split; [reflexivity|]. split; [|reflexivity].
    split; [discriminate|]. now intros (l & v & N & _).
  - intros [v E]. exists (F32.le (radius v) F32.zero).
    split; [apply (graphene_sphere_is_empty_run h l v E)|].
    split; [|discriminate]. split.
    + intros L. now exists l, v.
    + intros (l' & v' & N & E' & L). injection N as <-. congruence.
Qed.

Lemma graphene_sphere_is_empty_iff_witness :
  valid_ptr heap2 (Ptr 2) /\
  exists b, graphene_sphere_is_empty (Ptr 2) heap2 = Some (b, heap2)
    /\ (b = true <->
        exists l v, Ptr 2 = Ptr l /\ heap2 !! l = Some v
                    /\ F32.le (radius v) F32.zero = true)
    /\ (Ptr 2 = NULL -> b = false).
Proof.
  assert (V : valid_ptr heap2 (Ptr 2)) by (exists fresh_sphere; reflexivity).
  split; [exact V|].
  exact (graphene_sphere_is_empty_iff heap2 (Ptr 2) V).
Defined.

(** ** graphene_sphere_contains_point *)

(** C5, as the claim states it, fails on the boundary: the point
    (12859,10980,0) is at distance 16909 from the origin, since
    12859^2 + 10980^2 = 16909^2, and [graphene_sphere_distance] puts it at
    distance 0 from the surface of the sphere of radius 16909 at the
    origin; its squared distance rounds to 285914304, the squared radius
    to 285914272, and [graphene_sphere_contains_point] returns false. *)
Lemma graphene_sphere_contains_point_boundary_miss :
  graphene_sphere_contains_point (Ptr 1) (pt 12859 10980 0) heap6
    = Some (false, heap6)
  /\ F32.eq (F32.sqrtf (distance_sq (v3 0 0 0)
                          (point3d_to_vec3 (pt 12859 10980 0))))
            (f32 16909) = true
  /\ graphene_sphere_distance (Ptr 1) (pt 12859 10980 0) heap6
     = Some (F32.zero, heap6)
  /\ 12859 * 12859 + 10980 * 10980 = 16909 * 16909
  /\ distance_sq (v3 0 0 0) (point3d_to_vec3 (pt 12859 10980 0))
     = f32 285914304
  /\ F32.mul (f32 16909) (f32 16909) = f32 285914272.
Proof. repeat split. Qed.

(** C5, amended: [graphene_sphere_contains_point] returns true if and only
    if the squared distance from the center to the point, as [distance_sq]
    computes it, is [<=] the product of the radius with itself; the
    comparison is inclusive, so a point whose computed squared distance
    equals that product is contained. *)
Theorem graphene_sphere_contains_point_iff (h : heap) l s p :
  h !! l = Some s ->
  let d2 := distance_sq (center s) (point3d_to_vec3 p) in
  let radius_sq := F32.mul (radius s) (radius s) in
  exists b, graphene_sphere_contains_point (Ptr l) p h = Some (b, h)
    /\ (b = true <-> F32.le d2 radius_sq = true)
    /\ (F32.eq d2 radius_sq = true -> b = true).
Proof.
  intros E d2 radius_sq. exists (F32.le d2 radius_sq).
  split; [apply (graphene_sphere_contains_point_run h l s p E)|].
  split; [reflexivity | apply F32_eq_le].
Qed.

Lemma graphene_sphere_contains_point_iff_witness :
  heap2 !! 1%positive = Some (sphere (v3 0 0 0) (f32 1)) /\
  exists b, graphene_sphere_contains_point (Ptr 1) (pt 1 0 0) heap2
            = Some (b, heap2)
    /\ (b = true <->
        F32.le (distance_sq (v3 0 0 0) (point3d_to_vec3 (pt 1 0 0)))
               (F32.mul (f32 1) (f32 1)) = true)
    /\ (F32.eq (distance_sq (v3 0 0 0) (point3d_to_vec3 (pt 1 0 0)))
               (F32.mul (f32 1) (f32 1)) = true -> b = true).
Proof.
  split; [reflexivity|].
  apply (graphene_sphere_contains_point_iff heap2 1%positive
           (sphere (v3 0 0 0) (f32 1)) (pt 1 0 0)).
  reflexivity.
Defined.

(** The scenario of the unit sphere at the origin: (1,0,0), on the
    boundary, is contained; (2,0,0) is not. *)
Example unit_sphere_boundary :
  graphene_sphere_contains_point (Ptr 1) (pt 1 0 0) heap2 = Some (true, heap2)
  /\ graphene_sphere_contains_point (Ptr 1) (pt 2 0 0) heap2
     = Some (false, heap2).
Proof. split; reflexivity. Qed.

(** C10, as the claim states it, fails for a center that is not finite:
    the sphere of radius 0 whose center is (+inf,0,0) is empty for
    [graphene_sphere_is_empty], and
    [graphene_sphere_contains_point] returns false for its own center,
    the difference of +inf and +inf being NaN. *)
Lemma graphene_sphere_contains_point_inf_center :
  graphene_sphere_is_empty (Ptr 1) heap10 = Some (true, heap10)
  /\ graphene_sphere_contains_point (Ptr 1) inf_point heap10
     = Some (false, heap10)
  /\ center <$> heap10 !! 1%positive = Some (point3d_to_vec3 inf_point)
  /\ squared_euclidean_distance (point3d_to_vec3 inf_point) inf_point
     = S754_nan.
Proof. repeat split. Qed.

(** C10, amended: a sphere of radius [r] and a sphere with the same center
    and the radius [-r] give the same answer for every point, which is
    whether the squared Euclidean distance from the center to the point
    is [<=] the product of [r] with itself; and a sphere of radius 0,
    which [graphene_sphere_is_empty] reports as empty, contains its own
    center if and only if the coordinates of the center are finite. *)
Theorem graphene_sphere_contains_point_radius_sign
    (h h' h0 : heap) l l' l0 c r p c0 r0 :
  h !! l = Some (sphere c r) ->
  h' !! l' = Some (sphere c (F32.neg r)) ->
  h0 !! l0 = Some (sphere c0 r0) ->
  F32.eq r0 F32.zero = true ->
  (exists b, graphene_sphere_contains_point (Ptr l) p h = Some (b, h)
             /\ graphene_sphere_contains_point (Ptr l') p h' = Some (b, h')
             /\ b = F32.le (squared_euclidean_distance c p) (F32.mul r r))
  /\ graphene_sphere_is_empty (Ptr l0) h0 = Some (true, h0)
  /\ graphene_sphere_contains_point (Ptr l0)
       (graphene_point3d_init_from_vec3 c0) h0 = Some (vec3_finite c0, h0).
Proof.
  intros E E' E0 Z. split; [|split].
  - eexists. split; [|split].
    + apply (graphene_sphere_contains_point_run h l _ p E).
    + rewrite (graphene_sphere_contains_point_run h' l' _ p E'). simpl.
      now rewrite F32_mul_neg_neg.
    + reflexivity.
  - rewrite (graphene_sphere_is_empty_run h0 l0 _ E0). simpl.
    now rewrite (F32_le_zero r0 Z).
  - rewrite (graphene_sphere_contains_point_run h0 l0 _ _ E0). simpl.
    rewrite (F32_mul_zero r0 Z).
    replace (point3d_to_vec3 (graphene_point3d_init_from_vec3 c0)) with c0
      by now destruct c0 as [[]].
    rewrite distance_sq_diag_cases. now destruct (vec3_finite c0).
Qed.

Lemma graphene_sphere_contains_point_radius_sign_witness :
  heap3 !! 1%positive = Some (sphere (v3 1 1 0) (f32 3)) /\
  heap3 !! 2%positive = Some (sphere (v3 1 1 0) (F32.neg (f32 3))) /\
  heap4 !! 1%positive = Some (sphere (v3 1 2 3) F32.zero) /\
  F32.eq F32.zero F32.zero = true /\
  graphene_sphere_contains_point (Ptr 1) (pt 4 1 0) heap3 = Some (true, heap3) /\
  graphene_sphere_contains_point (Ptr 2) (pt 4 1 0) heap3 = Some (true, heap3) /\
  graphene_sphere_is_empty (Ptr 1) heap4 = Some (true, heap4) /\
  graphene_sphere_contains_point (Ptr 1)
    (graphene_point3d_init_from_vec3 (v3 1 2 3)) heap4 = Some (true, heap4).
Proof.
  do 4 (split; [reflexivity|]).
  destruct (graphene_sphere_contains_point_radius_sign heap3 heap3 heap4
              1%positive 2%positive 1%positive (v3 1 1 0) (f32 3) (pt 4 1 0)
              (v3 1 2 3) F32.zero eq_refl eq_refl eq_refl eq_refl)
    as ((b & B1 & B2 & ->) & Em & Ct).
  split; [exact B1|]. split; [exact B2|]. split; [exact Em | exact Ct].
Defined.

(** ** graphene_sphere_distance *)

(** C6, as the claim states it, fails, since the result is a rounded
    value: the point (191684,143753,0) is strictly outside the sphere of
    radius 239599 at the origin and [graphene_sphere_distance] is
    negative, -2^-6; the point (22809,49733,0) is strictly inside the
    sphere of radius 54714 at the origin and the result is positive,
    2^-8; and for a sphere of infinite radius a point at infinite
    distance gets NaN, not zero. *)
Lemma graphene_sphere_distance_sign_miss :
  (graphene_sphere_distance (Ptr 1) (pt 191684 143753 0) heap7
   = Some (S754_finite true 8388608 (-29), heap7)
   /\ F32.lt (S754_finite true 8388608 (-29)) F32.zero = true
   /\ 191684 * 191684 + 143753 * 143753 > 239599 * 239599)
  /\ (graphene_sphere_distance (Ptr 1) (pt 22809 49733 0) heap8
      = Some (S754_finite false 8388608 (-31), heap8)
      /\ F32.lt F32.zero (S754_finite false 8388608 (-31)) = true
      /\ 22809 * 22809 + 49733 * 49733 < 54714 * 54714)
  /\ (graphene_sphere_distance (Ptr 1) inf_point heap9 = Some (S754_nan, heap9)
      /\ F32.sqrtf (squared_euclidean_distance (v3 0 0 0) inf_point)
         = S754_infinity false
      /\ radius <$> heap9 !! 1%positive = Some (S754_infinity false)).
Proof. repeat split. Qed.

(** C6, amended: [graphene_sphere_distance] returns [sqrtf] of the squared
    Euclidean distance from the center to the point, minus the radius, all
    in single precision; for a radius that is a value a binary32 datum can
    hold, the result is negative exactly when that computed distance is
    below the radius, zero exactly when it equals the radius and the
    radius is finite, and positive exactly when it exceeds the radius. *)
Theorem graphene_sphere_distance_sign (h : heap) l s p :
  h !! l = Some s ->
  let dist := F32.sqrtf (squared_euclidean_distance (center s) p) in
  exists r, graphene_sphere_distance (Ptr l) p h = Some (r, h)
    /\ r = F32.sub dist (radius s)
    /\ (F32.valid (radius s) = true ->
        F32.lt r F32.zero = F32.lt dist (radius s)
        /\ F32.eq r F32.zero
           = F32.eq dist (radius s) && F32.is_finite (radius s)
        /\ F32.lt F32.zero r = F32.lt (radius s) dist).
Proof.
  intros E dist. exists (F32.sub dist (radius s)).
  split; [apply (graphene_sphere_distance_run h l s p E)|].
  split; [reflexivity|]. intros V.
  pose proof (F32_sqrtf_valid (squared_euclidean_distance (center s) p)) as Vd.
  fold dist in Vd.
  destruct (F32_sub_sign dist (radius s) Vd V) as (N & P & Z). auto.
Qed.

Lemma graphene_sphere_distance_sign_witness :
  heap2 !! 1%positive = Some (sphere (v3 0 0 0) (f32 1)) /\
  F32.valid (f32 1) = true /\
  exists r, graphene_sphere_distance (Ptr 1) (pt 3 4 0) heap2 = Some (r, heap2)
    /\ r = F32.sub (F32.sqrtf (squared_euclidean_distance (v3 0 0 0)
                                 (pt 3 4 0))) (f32 1)
    /\ F32.lt F32.zero r = true.
Proof.
  split; [reflexivity|]. split; [reflexivity|].
  destruct (graphene_sphere_distance_sign heap2 1%positive
              (sphere (v3 0 0 0) (f32 1)) (pt 3 4 0) eq_refl)
    as (r & R & Er & S).
  exists r. split; [exact R|]. split; [exact Er|].
  destruct (S eq_refl) as (_ & _ & ->). reflexivity.
Defined.

(** The three positions around the unit sphere at the origin: the
    distance is -1 at the center, 0 at (1,0,0) and 4 at (3,4,0). *)
Example unit_sphere_distances :
  graphene_sphere_distance (Ptr 1) (pt 0 0 0) heap2 = Some (f32 (-1), heap2)
  /\ graphene_sphere_distance (Ptr 1) (pt 1 0 0) heap2 = Some (F32.zero, heap2)
  /\ graphene_sphere_distance (Ptr 1) (pt 3 4 0) heap2 = Some (f32 4, heap2).
Proof. repeat split. Qed.

(** ** graphene_sphere_translate *)

(** C3, where the code departs from the claim: translating the unit
    sphere at address 1 by (1,2,3) into the cleared sphere at address 2
    writes the center (1,2,3) there and leaves the radius of [*res] at its
    old value 0, which is not the radius 1 of the translated sphere. *)
Theorem graphene_sphere_translate_keeps_res_radius :
  graphene_sphere_translate (Ptr 1) (pt 1 2 3) (Ptr 2) heap2 =
    Some (tt, <[2%positive := sphere (v3 1 2 3) F32.zero]> heap2)
  /\ (radius <$> heap2 !! 1%positive) = Some (f32 1)
  /\ F32.eq F32.zero (f32 1) = false.
Proof. split; [|split]; reflexivity. Qed.

(** Translating a sphere into itself moves its center and keeps its
    radius. *)
Example graphene_sphere_translate_in_place :
  graphene_sphere_translate (Ptr 1) (pt 1 2 3) (Ptr 1) heap2 =
    Some (tt, <[1%positive := sphere (v3 1 2 3) (f32 1)]> heap2).
Proof. reflexivity. Qed.

(** ** graphene_sphere_equal *)

(** C7: [graphene_sphere_equal] returns true at once for two equal
    pointers, both [NULL] included; false when exactly one of them is
    [NULL]; and for two distinct spheres true if and only if the radii
    compare equal with [==] and so do the three components of the centers. *)
Theorem graphene_sphere_equal_iff (h : heap) (a b : sphere_ptr) :
  valid_ptr h a -> valid_ptr h b ->
  exists r, graphene_sphere_equal a b h = Some (r, h)
    /\ (a = b -> r = true)
    /\ (a <> b -> a = NULL \/ b = NULL -> r = false)
    /\ (forall la lb sa sb,
          a = Ptr la -> b = Ptr lb -> la <> lb ->
          h !! la = Some sa -> h !! lb = Some sb ->
          (r = true <->
           F32.eq (radius sa) (radius sb) = true
           /\ F32.eq (vec3_x (center sa)) (vec3_x (center sb)) = true
           /\ F32.eq (vec3_y (center sa)) (vec3_y (center sb)) = true
           /\ F32.eq (vec3_z (center sa)) (vec3_z (center sb)) = true)).
Proof.
  intros Va Vb. destruct (ptr_eqb a b) eqn:Q.
  - apply ptr_eqb_eq in Q. subst b. exists true.
    split; [unfold graphene_sphere_equal;
            now rewrite (proj2 (ptr_eqb_eq a a) eq_refl)|].
    split; [reflexivity|]. split; [congruence|].
    intros la lb sa sb -> E. injection E as <-. congruence.
  - pose proof (proj1 (ptr_eqb_neq a b) Q) as N.
    destruct a as [|la], b as [|lb]; try congruence.
    + exists false. split; [reflexivity|]. repeat split; try congruence.
      all: intros; discriminate.
    + exists false. split; [reflexivity|]. repeat split; try congruence.
      all: intros; discriminate.
    + destruct Va as [sa Ea], Vb as [sb Eb].
      assert (N' : la <> lb) by congruence.
      eexists. split; [apply (graphene_sphere_equal_run h la lb sa sb N' Ea Eb)|].
      split; [congruence|]. split; [intros _ [|]; discriminate|].
      intros la' lb' sa' sb' A B _ Ea' Eb'.
      injection A as <-. injection B as <-.
      rewrite Ea in Ea'. rewrite Eb in Eb'.
      injection Ea' as <-. injection Eb' as <-.
      unfold graphene_simd4f_cmp_eq, vec3_x, vec3_y, vec3_z.
      rewrite !andb_true_iff. tauto.
Qed.

Lemma graphene_sphere_equal_iff_witness :
  valid_ptr heap3 (Ptr 1) /\ valid_ptr heap3 (Ptr 2) /\
  exists r, graphene_sphere_equal (Ptr 1) (Ptr 2) heap3 = Some (r, heap3)
    /\ (Ptr 1 = Ptr 2 -> r = true)
    /\ (Ptr 1 <> Ptr 2 -> Ptr 1 = NULL \/ Ptr 2 = NULL -> r = false)
    /\ (forall la lb sa sb,
          Ptr 1 = Ptr la -> Ptr 2 = Ptr lb -> la <> lb ->
          heap3 !! la = Some sa -> heap3 !! lb = Some sb ->
          (r = true <->
           F32.eq (radius sa) (radius sb) = true
           /\ F32.eq (vec3_x (center sa)) (vec3_x (center sb)) = true
           /\ F32.eq (vec3_y (center sa)) (vec3_y (center sb)) = true
           /\ F32.eq (vec3_z (center sa)) (vec3_z (center sb)) = true)).
Proof.
  assert (V1 : valid_ptr heap3 (Ptr 1)) by (eexists; reflexivity).
  assert (V2 : valid_ptr heap3 (Ptr 2)) by (eexists; reflexivity).
  split; [exact V1|]. split; [exact V2|].
  exact (graphene_sphere_equal_iff heap3 (Ptr 1) (Ptr 2) V1 V2).
Defined.

(** * Further properties of graphene-sphere.c *)

(** ** Running the getters, the allocation and the release *)

Lemma graphene_sphere_get_center_run (h : heap) l v :
  h !! l = Some v ->
  graphene_sphere_get_center (Ptr l) h =
    Some (graphene_point3d_init_from_vec3 (center v), h).
Proof.
  intros E. unfold graphene_sphere_get_center.
  now step (load_center_Some h l v E).
Qed.

Lemma graphene_sphere_get_radius_run (h : heap) l v :
  h !! l = Some v ->
  graphene_sphere_get_radius (Ptr l) h = Some (radius v, h).
Proof. apply load_radius_Some. Qed.

(** ** Initialization read back *)

(** X1: what [graphene_sphere_init] is given is what the two getters
    return afterwards: [graphene_sphere_get_center] gives the point passed
    as center, coordinate for coordinate (the origin for [NULL]), and
    [graphene_sphere_get_radius] the radius, whatever float it is. *)
Theorem graphene_sphere_init_get (h : heap) l old c r :
  h !! l = Some old ->
  exists h',
    graphene_sphere_init (Ptr l) c r h = Some (Ptr l, h')
    /\ graphene_sphere_get_center (Ptr l) h' =
         Some (match c with
               | None => point3d F32.zero F32.zero F32.zero
               | Some p => p
               end, h')
    /\ graphene_sphere_get_radius (Ptr l) h' = Some (r, h').
Proof.
  intros E. eexists. split; [|split].
  - unfold graphene_sphere_init.
    assert (S1 : (match c with
                  | None => store_center (Ptr l)
                              (graphene_vec3_init_from_vec3 graphene_vec3_zero)
                  | Some p => store_center (Ptr l)
                                (graphene_vec3_init (x p) (y p) (z p))
                  end) h = Some (tt, <[l := sphere (center_of c) (radius old)]> h)).
    { destruct c; exact (store_center_Some h l old _ E). }
    step S1.
    erewrite bind_Some by (eapply store_radius_Some; apply lookup_insert_eq).
    simpl. rewrite insert_insert_eq. reflexivity.
  - erewrite graphene_sphere_get_center_run by apply lookup_insert_eq.
    destruct c as [[px py pz]|]; reflexivity.
  - erewrite graphene_sphere_get_radius_run by apply lookup_insert_eq.
    reflexivity.
Qed.

Lemma graphene_sphere_init_get_witness :
  heap1 !! 1%positive = Some fresh_sphere /\
  exists h',
    graphene_sphere_init (Ptr 1) (Some (pt 1 2 3)) (f32 (-5)) heap1
      = Some (Ptr 1, h')
    /\ graphene_sphere_get_center (Ptr 1) h' = Some (pt 1 2 3, h')
    /\ graphene_sphere_get_radius (Ptr 1) h' = Some (f32 (-5), h').
Proof.
  split; [reflexivity|].
  exact (graphene_sphere_init_get heap1 1%positive fresh_sphere
           (Some (pt 1 2 3)) (f32 (-5)) eq_refl).
Defined.

(** ** A radius that is NaN *)

(** X2: a sphere whose radius is NaN is not empty for
    [graphene_sphere_is_empty], yet [graphene_sphere_contains_point]
    accepts no point at all, and [graphene_sphere_distance] is NaN for
    every point. *)
Theorem graphene_sphere_nan_radius (h : heap) l s :
  h !! l = Some s -> F32.is_nan (radius s) = true ->
  graphene_sphere_is_empty (Ptr l) h = Some (false, h)
  /\ (forall p, graphene_sphere_contains_point (Ptr l) p h = Some (false, h))
  /\ (forall p, graphene_sphere_distance (Ptr l) p h = Some (S754_nan, h)).
Proof.
  intros E N. split; [|split].
  - rewrite (graphene_sphere_is_empty_run h l s E).
    now rewrite (F32_le_nan_l _ _ N).
  - intros p. rewrite (graphene_sphere_contains_point_run h l s p E).
    rewrite (F32_mul_nan _ N). now rewrite F32_le_nan_r.
  - intros p. rewrite (graphene_sphere_distance_run h l s p E).
    now rewrite (F32_sub_nan_r _ _ N).
Qed.

Lemma graphene_sphere_nan_radius_witness :
  heap_nan !! 1%positive = Some (sphere (v3 0 0 0) S754_nan) /\
  F32.is_nan S754_nan = true /\
  graphene_sphere_is_empty (Ptr 1) heap_nan = Some (false, heap_nan) /\
  graphene_sphere_contains_point (Ptr 1) (pt 0 0 0) heap_nan
    = Some (false, heap_nan).
Proof.
  split; [reflexivity|]. split; [reflexivity|].
  destruct (graphene_sphere_nan_radius heap_nan 1%positive
              (sphere (v3 0 0 0) S754_nan) eq_refl eq_refl) as (E & C & _).
  split; [exact E | exact (C (pt 0 0 0))].
Defined.

(** ** The radius of a point cloud, whatever the points *)

(** X3: the radius that [graphene_sphere_init_from_points] stores is never
    NaN and never negative (nor -0), whatever the points and the center,
    NaN and infinite coordinates included; the sphere is empty for
    [graphene_sphere_is_empty] exactly when that radius is 0. *)
Theorem graphene_sphere_init_from_points_radius_sign
    (h : heap) l old points c :
  h !! l = Some old ->
  exists ctr r h',
    graphene_sphere_init_from_points (Ptr l) points c h = Some (Ptr l, h')
    /\ h' !! l = Some (sphere ctr r)
    /\ F32.is_nan r = false
    /\ F32.lt r F32.zero = false
    /\ r <> S754_zero true
    /\ exists b, graphene_sphere_is_empty (Ptr l) h' = Some (b, h')
                 /\ (b = true <-> r = F32.zero).
Proof.
  intros E.
  rewrite (graphene_sphere_init_from_points_run h l old points c E).
  set (ctr := chosen_center points c).
  pose proof (F32_sqrtf_sign _ (running_max_sign ctr points F32.zero eq_refl))
    as S.
  set (r := F32.sqrtf (running_max ctr points F32.zero)) in *.
  exists ctr, r, (<[l := sphere ctr r]> h).
  split; [reflexivity|]. split; [apply lookup_insert_eq|].
  split; [now destruct r|]. split; [now destruct r as [[]|[]| |[] m e]|].
  split; [now destruct r as [[]|[]| |[] m e]|].
  exists (F32.le r F32.zero).
  split; [now erewrite graphene_sphere_is_empty_run by apply lookup_insert_eq|].
  split; [now apply sign_false_le_zero | now intros ->].
Qed.

Lemma graphene_sphere_init_from_points_radius_sign_witness :
  heap1 !! 1%positive = Some fresh_sphere /\
  exists ctr r h',
    graphene_sphere_init_from_points (Ptr 1) cloud_nan None heap1
      = Some (Ptr 1, h')
    /\ h' !! 1%positive = Some (sphere ctr r)
    /\ F32.is_nan r = false
    /\ F32.lt r F32.zero = false.
Proof.
  split; [reflexivity|].
  destruct (graphene_sphere_init_from_points_radius_sign heap1 1%positive
              fresh_sphere cloud_nan None eq_refl)
    as (ctr & r & h' & R & L & N & P & _).
  exists ctr, r, h'. auto.
Defined.

(** X4: with an explicit center, the sphere that
    [graphene_sphere_init_from_points] builds does not depend on the order
    of the points in the array, whatever the points. *)
Theorem graphene_sphere_init_from_points_Permutation
    (h : heap) l old points points' c :
  h !! l = Some old -> Permutation points points' ->
  graphene_sphere_init_from_points (Ptr l) points (Some c) h =
  graphene_sphere_init_from_points (Ptr l) points' (Some c) h.
Proof.
  intros E P.
  rewrite (graphene_sphere_init_from_points_run h l old points (Some c) E).
  rewrite (graphene_sphere_init_from_points_run h l old points' (Some c) E).
  simpl. now rewrite (running_max_Permutation _ points points' F32.zero eq_refl P).
Qed.

Lemma graphene_sphere_init_from_points_Permutation_witness :
  heap1 !! 1%positive = Some fresh_sphere /\
  Permutation cloud_nan (rev cloud_nan) /\
  graphene_sphere_init_from_points (Ptr 1) cloud_nan (Some (pt 1 1 0)) heap1 =
  graphene_sphere_init_from_points (Ptr 1) (rev cloud_nan) (Some (pt 1 1 0)) heap1.
Proof.
  assert (P : Permutation cloud_nan (rev cloud_nan)) by apply Permutation_rev.
  split; [reflexivity|]. split; [exact P|].
  exact (graphene_sphere_init_from_points_Permutation heap1 1%positive
           fresh_sphere cloud_nan (rev cloud_nan) (pt 1 1 0) eq_refl P).
Defined.

(** ** Translation and the radii *)

(** X5: [graphene_sphere_translate] changes no radius in memory, that of
    [*res] included, and no sphere but [*res]; the center of [*res] becomes
    the sum of the center of [*s] and the offset.  With [res] equal to [s]
    the sphere is moved in place and keeps its radius. *)
Theorem graphene_sphere_translate_radii (h : heap) ls lr vs vr p :
  h !! ls = Some vs -> h !! lr = Some vr ->
  exists h',
    graphene_sphere_translate (Ptr ls) p (Ptr lr) h = Some (tt, h')
    /\ (forall l, radius <$> h' !! l = radius <$> h !! l)
    /\ (forall l, l <> lr -> h' !! l = h !! l)
    /\ center <$> h' !! lr
       = Some (graphene_vec3_add (center vs) (point3d_to_vec3 p))
    /\ (ls = lr ->
        h' !! ls = Some (sphere (graphene_vec3_add (center vs)
                                   (point3d_to_vec3 p)) (radius vs))).
Proof.
  intros Es Er. eexists.
  split; [apply (graphene_sphere_translate_run h ls lr vs vr p Es Er)|].
  split; [|split; [|split]].
  - intros l. destruct (decide (l = lr)) as [->|N].
    + now rewrite lookup_insert_eq, Er.
    + now rewrite lookup_insert_ne.
  - intros l N. now rewrite lookup_insert_ne.
  - now rewrite lookup_insert_eq.
  - intros ->. rewrite lookup_insert_eq. congruence.
Qed.

Lemma graphene_sphere_translate_radii_witness :
  heap2 !! 1%positive = Some (sphere (v3 0 0 0) (f32 1)) /\
  heap2 !! 2%positive = Some fresh_sphere /\
  exists h',
    graphene_sphere_translate (Ptr 1) (pt 1 2 3) (Ptr 2) heap2 = Some (tt, h')
    /\ (forall l, radius <$> h' !! l = radius <$> heap2 !! l).
Proof.
  split; [reflexivity|]. split; [reflexivity|].
  destruct (graphene_sphere_translate_radii heap2 1%positive 2%positive
              (sphere (v3 0 0 0) (f32 1)) fresh_sphere (pt 1 2 3)
              eq_refl eq_refl) as (h' & R & Rad & _).
  exists h'. auto.
Defined.

(** ** Equality as a relation *)

Lemma graphene_simd4f_cmp_eq_sym a b :
  graphene_simd4f_cmp_eq a b = graphene_simd4f_cmp_eq b a.
Proof.
  unfold graphene_simd4f_cmp_eq.
  now rewrite (F32_eq_sym (lane_x a)), (F32_eq_sym (lane_y a)),
    (F32_eq_sym (lane_z a)).
Qed.

Lemma graphene_simd4f_cmp_eq_trans a b c :
  graphene_simd4f_cmp_eq a b = true -> graphene_simd4f_cmp_eq b c = true ->
  graphene_simd4f_cmp_eq a c = true.
Proof.
  unfold graphene_simd4f_cmp_eq. rewrite !andb_true_iff.
  intros [[X1 Y1] Z1] [[X2 Y2] Z2].
  repeat split; eapply F32_eq_trans; eassumption.
Qed.

Lemma ptr_eqb_sym a b : ptr_eqb a b = ptr_eqb b a.
Proof. destruct a, b; simpl; auto using Pos.eqb_sym. Qed.

(** The answer of [graphene_sphere_equal] on two distinct spheres, as a
    proposition. *)
Lemma graphene_sphere_equal_true (h : heap) la lb sa sb :
  la <> lb -> h !! la = Some sa -> h !! lb = Some sb ->
  graphene_sphere_equal (Ptr la) (Ptr lb) h = Some (true, h) <->
  F32.eq (radius sa) (radius sb) = true
  /\ graphene_simd4f_cmp_eq (value (center sa)) (value (center sb)) = true.
Proof.
  intros N Ea Eb. rewrite (graphene_sphere_equal_run h la lb sa sb N Ea Eb).
  rewrite <- andb_true_iff. split; [congruence | now intros ->].
Qed.

(** X6: [graphene_sphere_equal] gives the same answer when its two
    arguments are exchanged. *)
Theorem graphene_sphere_equal_sym (h : heap) (a b : sphere_ptr) :
  valid_ptr h a -> valid_ptr h b ->
  graphene_sphere_equal a b h = graphene_sphere_equal b a h.
Proof.
  intros Va Vb. destruct (ptr_eqb a b) eqn:Q.
  - apply ptr_eqb_eq in Q. now subst.
  - pose proof (proj1 (ptr_eqb_neq a b) Q) as N.
    destruct a as [|la], b as [|lb]; try congruence; try reflexivity.
    destruct Va as [sa Ea], Vb as [sb Eb].
    rewrite (graphene_sphere_equal_run h la lb sa sb) by congruence.
    rewrite (graphene_sphere_equal_run h lb la sb sa) by congruence.
    now rewrite F32_eq_sym, graphene_simd4f_cmp_eq_sym.
Qed.

Lemma graphene_sphere_equal_sym_witness :
  valid_ptr heap3 (Ptr 1) /\ valid_ptr heap3 (Ptr 2) /\
  graphene_sphere_equal (Ptr 1) (Ptr 2) heap3
  = graphene_sphere_equal (Ptr 2) (Ptr 1) heap3.
Proof.
  assert (V1 : valid_ptr heap3 (Ptr 1)) by (eexists; reflexivity).
  assert (V2 : valid_ptr heap3 (Ptr 2)) by (eexists; reflexivity).
  split; [exact V1|]. split; [exact V2|].
  exact (graphene_sphere_equal_sym heap3 (Ptr 1) (Ptr 2) V1 V2).
Defined.

(** X7: [graphene_sphere_equal] is transitive: when it answers true for
    [a] and [b] and for [b] and [c], it answers true for [a] and [c]. *)
Theorem graphene_sphere_equal_trans (h : heap) (a b c : sphere_ptr) :
  valid_ptr h a -> valid_ptr h b -> valid_ptr h c ->
  graphene_sphere_equal a b h = Some (true, h) ->
  graphene_sphere_equal b c h = Some (true, h) ->
  graphene_sphere_equal a c h = Some (true, h).
Proof.
  intros Va Vb Vc Hab Hbc.
  destruct (ptr_eqb a c) eqn:Qac;
    [unfold graphene_sphere_equal; now rewrite Qac|].
  destruct (ptr_eqb a b) eqn:Qab; [apply ptr_eqb_eq in Qab; now subst|].
  destruct (ptr_eqb b c) eqn:Qbc; [apply ptr_eqb_eq in Qbc; now subst|].
  apply ptr_eqb_neq in Qac, Qab, Qbc.
  destruct a as [|la]; [destruct b; [congruence | discriminate]|].
  destruct b as [|lb]; [discriminate|].
  destruct c as [|lc]; [discriminate|].
  destruct Va as [sa Ea], Vb as [sb Eb], Vc as [sc Ec].
  apply (graphene_sphere_equal_true h la lb sa sb) in Hab as [R1 C1];
    [|congruence|assumption|assumption].
  apply (graphene_sphere_equal_true h lb lc sb sc) in Hbc as [R2 C2];
    [|congruence|assumption|assumption].
  apply (graphene_sphere_equal_true h la lc sa sc);
    [congruence|assumption|assumption|].
  split; [eapply F32_eq_trans | eapply graphene_simd4f_cmp_eq_trans];
    eassumption.
Qed.

Lemma graphene_sphere_equal_trans_witness :
  valid_ptr heap_zeros (Ptr 1) /\ valid_ptr heap_zeros (Ptr 2) /\
  valid_ptr heap_zeros (Ptr 3) /\
  graphene_sphere_equal (Ptr 1) (Ptr 2) heap_zeros = Some (true, heap_zeros) /\
  graphene_sphere_equal (Ptr 2) (Ptr 3) heap_zeros = Some (true, heap_zeros) /\
  graphene_sphere_equal (Ptr 1) (Ptr 3) heap_zeros = Some (true, heap_zeros).
Proof.
  assert (V1 : valid_ptr heap_zeros (Ptr 1)) by (eexists; reflexivity).
  assert (V2 : valid_ptr heap_zeros (Ptr 2)) by (eexists; reflexivity).
  assert (V3 : valid_ptr heap_zeros (Ptr 3)) by (eexists; reflexivity).
  split; [exact V1|]. split; [exact V2|]. split; [exact V3|].
  split; [reflexivity|]. split; [reflexivity|].
  exact (graphene_sphere_equal_trans heap_zeros (Ptr 1) (Ptr 2) (Ptr 3)
           V1 V2 V3 eq_refl eq_refl).
Defined.

Lemma F32_sqrtf_nan_or_positive a :
  nan_or_positive a = true -> nan_or_positive (F32.sqrtf a) = true.
Proof.
  unfold nan_or_positive. destruct (F32.is_nan a) eqn:N; [now destruct a|].
  simpl. intros S. rewrite (F32_sqrtf_sign a S). apply orb_true_r.
Qed.

Lemma F32_eq_sub_r a r r' :
  nan_or_positive a = true -> F32.eq r r' = true ->
  F32.sub a r = F32.sub a r'.
Proof.
  intros Na H. destruct (F32_eq_cases r r' H) as [->|(s & s' & -> & ->)];
    [reflexivity|].
  destruct a as [[]|[]| |[] m e], s, s'; try discriminate; reflexivity.
Qed.

(** X8: two spheres that [graphene_sphere_equal] reports as equal are not
    told apart by the queries: [graphene_sphere_is_empty],
    [graphene_sphere_contains_point] and [graphene_sphere_distance] return
    the same on both, for every point. *)
Theorem graphene_sphere_equal_queries (h : heap) (a b : sphere_ptr) :
  valid_ptr h a -> valid_ptr h b ->
  graphene_sphere_equal a b h = Some (true, h) ->
  graphene_sphere_is_empty a h = graphene_sphere_is_empty b h
  /\ (forall p, graphene_sphere_contains_point a p h
                = graphene_sphere_contains_point b p h)
  /\ (forall p, graphene_sphere_distance a p h
                = graphene_sphere_distance b p h).
Proof.
  intros Va Vb H. destruct (ptr_eqb a b) eqn:Q;
    [apply ptr_eqb_eq in Q; now subst|].
  apply ptr_eqb_neq in Q.
  destruct a as [|la]; [destruct b; [congruence | discriminate]|].
  destruct b as [|lb]; [discriminate|].
  destruct Va as [sa Ea], Vb as [sb Eb].
  apply (graphene_sphere_equal_true h la lb sa sb) in H as [R C];
    [|congruence|assumption|assumption].
  split; [|split].
  - rewrite (graphene_sphere_is_empty_run h la sa Ea),
      (graphene_sphere_is_empty_run h lb sb Eb).
    now rewrite (F32_eq_le_zero _ _ R).
  - intros p.
    rewrite (graphene_sphere_contains_point_run h la sa p Ea),
      (graphene_sphere_contains_point_run h lb sb p Eb).
    now rewrite (distance_sq_eq _ _ _ C), (F32_eq_mul_self _ _ R).
  - intros p.
    rewrite (graphene_sphere_distance_run h la sa p Ea),
      (graphene_sphere_distance_run h lb sb p Eb).
    rewrite (distance_sq_eq _ _ _ C).
    now rewrite (F32_eq_sub_r _ _ _
                   (F32_sqrtf_nan_or_positive _
                      (distance_sq_nan_or_positive _ _)) R).
Qed.

Lemma graphene_sphere_equal_queries_witness :
  valid_ptr heap_zeros (Ptr 1) /\ valid_ptr heap_zeros (Ptr 2) /\
  graphene_sphere_equal (Ptr 1) (Ptr 2) heap_zeros = Some (true, heap_zeros) /\
  graphene_sphere_distance (Ptr 1) (pt 0 1 2) heap_zeros
  = graphene_sphere_distance (Ptr 2) (pt 0 1 2) heap_zeros.
Proof.
  assert (V1 : valid_ptr heap_zeros (Ptr 1)) by (eexists; reflexivity).
  assert (V2 : valid_ptr heap_zeros (Ptr 2)) by (eexists; reflexivity).
  split; [exact V1|]. split; [exact V2|]. split; [reflexivity|].
  destruct (graphene_sphere_equal_queries heap_zeros (Ptr 1) (Ptr 2) V1 V2
              eq_refl) as (_ & _ & D).
  exact (D (pt 0 1 2)).
Defined.

(** ** Allocation and release *)

(** X9: a sphere that [graphene_sphere_alloc] returns is cleared, so it is
    already the empty sphere of radius 0 at the origin, and the spheres in
    memory before are as they were; [graphene_sphere_free] on it gives the
    memory of before back.  Without memory the call returns [NULL] and
    changes nothing, and [graphene_sphere_free] accepts that [NULL]. *)
Theorem graphene_sphere_alloc_fresh (h : heap) l :
  h !! l = None ->
  exists h',
    graphene_sphere_alloc (Some l) h = Some (Ptr l, h')
    /\ graphene_sphere_is_empty (Ptr l) h' = Some (true, h')
    /\ graphene_sphere_get_radius (Ptr l) h' = Some (F32.zero, h')
    /\ graphene_sphere_get_center (Ptr l) h'
       = Some (point3d F32.zero F32.zero F32.zero, h')
    /\ (forall l', l' <> l -> h' !! l' = h !! l')
    /\ graphene_sphere_free (Ptr l) h' = Some (tt, h)
    /\ graphene_sphere_alloc None h = Some (NULL, h)
    /\ graphene_sphere_free NULL h = Some (tt, h).
Proof.
  intros F. exists (<[l := fresh_sphere]> h).
  split; [unfold graphene_sphere_alloc, calloc_sphere; now rewrite F|].
  split; [now erewrite graphene_sphere_is_empty_run by apply lookup_insert_eq|].
  split; [now erewrite graphene_sphere_get_radius_run
            by apply lookup_insert_eq|].
  split; [now erewrite graphene_sphere_get_center_run
            by apply lookup_insert_eq|].
  split; [intros l' N; now rewrite lookup_insert_ne|].
  split; [|split; reflexivity].
  unfold graphene_sphere_free. rewrite lookup_insert_eq.
  now rewrite delete_insert_id.
Qed.

Lemma graphene_sphere_alloc_fresh_witness :
  heap1 !! 2%positive = None /\
  exists h',
    graphene_sphere_alloc (Some 2%positive) heap1 = Some (Ptr 2, h')
    /\ graphene_sphere_is_empty (Ptr 2) h' = Some (true, h').
Proof.
  split; [reflexivity|].
  destruct (graphene_sphere_alloc_fresh heap1 2%positive eq_refl)
    as (h' & A & E & _).
  exists h'. auto.
Defined.



(** X11: a sphere made from copies of one finite point [p], with [p] given
    as the center, has the radius [+0]: [graphene_sphere_is_empty] calls
    it empty, and yet it contains [p], at the distance [+0]. *)
Theorem graphene_sphere_init_from_points_single (h : heap) (l : positive)
    (old : graphene_sphere_t) (points : list graphene_point3d_t)
    (p : graphene_point3d_t) :
  h !! l = Some old ->
  point3d_finite p = true ->
  Forall (fun q => q = p) points ->
  exists h',
    graphene_sphere_init_from_points (Ptr l) points (Some p) h = Some (Ptr l, h')
    /\ graphene_sphere_get_radius (Ptr l) h' = Some (F32.zero, h')
    /\ graphene_sphere_is_empty (Ptr l) h' = Some (true, h')
    /\ graphene_sphere_contains_point (Ptr l) p h' = Some (true, h')
    /\ graphene_sphere_distance (Ptr l) p h' = Some (F32.zero, h').
Proof.
  intros Hl Hp Hall.
  pose proof (graphene_sphere_init_from_points_run h l old points (Some p) Hl)
    as Run.
  change (chosen_center points (Some p)) with (point3d_to_vec3 p) in Run.
  assert (D : distance_sq (point3d_to_vec3 p) (point3d_to_vec3 p) = F32.zero)
    by now apply distance_sq_diag, point3d_to_vec3_finite.
  assert (R : running_max (point3d_to_vec3 p) points F32.zero = F32.zero).
  { unfold running_max. clear Run. induction Hall as [|q qs -> _ IH]; [reflexivity|].
    simpl. rewrite D. exact IH. }
  rewrite R in Run. change (F32.sqrtf F32.zero) with F32.zero in Run.
  eexists. split; [exact Run|].
  set (v := sphere (point3d_to_vec3 p) F32.zero).
  assert (Hl' : <[l := v]> h !! l = Some v) by apply lookup_insert_eq.
  split; [exact (graphene_sphere_get_radius_run _ l v Hl')|].
  split; [exact (graphene_sphere_is_empty_run _ l v Hl')|].
  split.
  - rewrite (graphene_sphere_contains_point_run _ l v p Hl').
    subst v. simpl center. simpl radius. now rewrite D.
  - rewrite (graphene_sphere_distance_run _ l v p Hl').
    subst v. simpl center. simpl radius. now rewrite D.
Qed.

Lemma graphene_sphere_init_from_points_single_witness :
  exists h',
    graphene_sphere_init_from_points (Ptr 1) [pt 1 2 3; pt 1 2 3]
      (Some (pt 1 2 3)) heap1 = Some (Ptr 1, h')
    /\ graphene_sphere_get_radius (Ptr 1) h' = Some (F32.zero, h')
    /\ graphene_sphere_is_empty (Ptr 1) h' = Some (true, h')
    /\ graphene_sphere_contains_point (Ptr 1) (pt 1 2 3) h' = Some (true, h')
    /\ graphene_sphere_distance (Ptr 1) (pt 1 2 3) h' = Some (F32.zero, h').
Proof.
  apply (graphene_sphere_init_from_points_single heap1 1 fresh_sphere
           [pt 1 2 3; pt 1 2 3] (pt 1 2 3)).
  - reflexivity.
  - reflexivity.
  - repeat constructor.
Defined.

(** * Properties of graphene-private.h *)

(** ** Exact shifts *)

Lemma iter_pos_shr_1_exact k m :
  SpecFloat.iter_pos shr_1 k
    {| shr_m := Zpos (Pos.iter xO m k); shr_r := false; shr_s := false |}
  = {| shr_m := Zpos m; shr_r := false; shr_s := false |}.
Proof.
  revert m. induction k as [k IH|k IH|]; intros m; simpl.
  - now rewrite !IH.
  - now rewrite !IH.
  - reflexivity.
Qed.

Lemma digits2_pos_iter_xO m k :
  Zpos (digits2_pos (Pos.iter xO m k)) = Zpos (digits2_pos m) + Zpos k.
Proof.
  induction k as [|k IH] using Pos.peano_ind.
  - simpl. lia.
  - rewrite Pos.iter_succ. simpl digits2_pos.
    rewrite Pos2Z.inj_succ, IH. lia.
Qed.

(** Rounding a mantissa that is a canonical one with [k] zeros appended
    gives the canonical float back, in any format. *)
Lemma binary_round_aux_exact prec emax s m e k :
  bounded prec emax m e = true ->
  binary_round_aux prec emax s (Zpos (Pos.iter xO m k)) (e - Zpos k) loc_Exact
  = S754_finite s m e.
Proof.
  unfold bounded, canonical_mantissa. rewrite andb_true_iff, Z.eqb_eq.
  intros [C B]. unfold binary_round_aux, shr_fexp.
  rewrite Zdigits2_Zpos, digits2_pos_iter_xO.
  replace (Zpos (digits2_pos m) + Zpos k + (e - Zpos k))
    with (Zpos (digits2_pos m) + e) by lia.
  rewrite C. replace (e - (e - Zpos k)) with (Zpos k) by lia.
  simpl shr_record_of_loc. unfold shr at 1.
  rewrite iter_pos_shr_1_exact. simpl.
  replace (e - Zpos k + Zpos k) with e by lia.
  rewrite C, Z.sub_diag. simpl. now rewrite B.
Qed.

Lemma binary_round_aux_exact_0 prec emax s m e :
  bounded prec emax m e = true ->
  binary_round_aux prec emax s (Zpos m) e loc_Exact = S754_finite s m e.
Proof.
  unfold bounded, canonical_mantissa. rewrite andb_true_iff, Z.eqb_eq.
  intros [C B]. unfold binary_round_aux, shr_fexp.
  rewrite Zdigits2_Zpos, C, Z.sub_diag. simpl.
  rewrite C, Z.sub_diag. simpl. now rewrite B.
Qed.

Lemma binary_round_canonical prec emax s m e :
  bounded prec emax m e = true ->
  binary_round prec emax s m e = S754_finite s m e.
Proof.
  intros B. unfold binary_round, shl_align.
  pose proof B as B'. unfold bounded, canonical_mantissa in B'.
  rewrite andb_true_iff, Z.eqb_eq in B'. destruct B' as [C _].
  rewrite C, Z.sub_diag. now apply binary_round_aux_exact_0.
Qed.

Lemma binary_round_shifted prec emax s m e k :
  bounded prec emax m e = true ->
  binary_round prec emax s (Pos.iter xO m k) (e - Zpos k) = S754_finite s m e.
Proof.
  intros B. unfold binary_round, shl_align.
  pose proof B as B'. unfold bounded, canonical_mantissa in B'.
  rewrite andb_true_iff, Z.eqb_eq in B'. destruct B' as [C _].
  rewrite digits2_pos_iter_xO.
  replace (Zpos (digits2_pos m) + Zpos k + (e - Zpos k))
    with (Zpos (digits2_pos m) + e) by lia.
  rewrite C. replace (e - (e - Zpos k)) with (Zpos k) by lia.
  now apply binary_round_aux_exact.
Qed.

(** A value with fewer digits than the format has, and within its range of
    exponents, is represented exactly: the mantissa is padded with zeros. *)
Lemma binary_round_widen prec emax s m e k :
  Zpos k = prec - Zpos (digits2_pos m) ->
  3 - emax - prec <= e - Zpos k <= emax - prec ->
  binary_round prec emax s m e
  = S754_finite s (Pos.iter xO m k) (e - Zpos k)
  /\ bounded prec emax (Pos.iter xO m k) (e - Zpos k) = true.
Proof.
  intros K R.
  assert (B : bounded prec emax (Pos.iter xO m k) (e - Zpos k) = true).
  { unfold bounded, canonical_mantissa, fexp, emin.
    rewrite andb_true_iff, Z.eqb_eq, Z.leb_le, digits2_pos_iter_xO. lia. }
  split; [|exact B].
  unfold binary_round, shl_align, fexp, emin.
  replace (Z.max (Zpos (digits2_pos m) + e - prec) (3 - emax - prec))
    with (e - Zpos k) by lia.
  replace (e - Zpos k - e) with (Zneg k) by lia.
  now apply binary_round_aux_exact_0.
Qed.

(** ** Conversions between [float], [double] and [int] *)

Lemma F64_of_float_finite s m e :
  F32.valid (S754_finite s m e) = true ->
  exists k, F64.of_float (S754_finite s m e)
            = S754_finite s (Pos.iter xO m k) (e - Zpos k)
            /\ bounded F64.prec F64.emax (Pos.iter xO m k) (e - Zpos k) = true.
Proof.
  intros V. pose proof (valid_finite_bounds _ _ _ V) as (He & Hm & _).
  pose proof (digits2_pos_le m 24 ltac:(lia) Hm) as D.
  assert (exists k, Zpos k = F64.prec - Zpos (digits2_pos m)) as [k K].
  { exists (Z.to_pos (F64.prec - Zpos (digits2_pos m))).
    unfold F64.prec. rewrite Z2Pos.id; lia. }
  exists k. apply binary_round_widen; [exact K|].
  unfold F64.prec, F64.emax in *. lia.
Qed.

(** A [float] converted to [double] and back is unchanged. *)
Lemma F64_to_float_of_float a :
  F32.valid a = true -> F64.to_float (F64.of_float a) = a.
Proof.
  destruct a as [s|s| |s m e]; try reflexivity. intros V.
  destruct (F64_of_float_finite s m e V) as (k & -> & _).
  simpl. now apply binary_round_shifted.
Qed.

Lemma F64_of_float_valid a :
  F32.valid a = true -> F64.valid (F64.of_float a) = true.
Proof.
  destruct a as [s|s| |s m e]; try reflexivity. intros V.
  destruct (F64_of_float_finite s m e V) as (k & -> & B). exact B.
Qed.

Lemma F64_of_int_pos s m :
  Zpos m < 2 ^ 32 ->
  exists k, binary_round F64.prec F64.emax s m 0
            = S754_finite s (Pos.iter xO m k) (- Zpos k)
            /\ bounded F64.prec F64.emax (Pos.iter xO m k) (- Zpos k) = true.
Proof.
  intros Hm.
  pose proof (digits2_pos_le m 32 ltac:(lia) Hm) as D.
  assert (exists k, Zpos k = F64.prec - Zpos (digits2_pos m)) as [k K].
  { exists (Z.to_pos (F64.prec - Zpos (digits2_pos m))).
    unfold F64.prec. rewrite Z2Pos.id; lia. }
  exists k. change (- Zpos k) with (0 - Zpos k).
  apply binary_round_widen; [exact K|].
  unfold F64.prec, F64.emax in *. lia.
Qed.

(** An [int] converted to [double] and back is unchanged. *)
Lemma F64_to_int_of_int n :
  F64.INT_MIN <= n <= F64.INT_MAX -> F64.to_int (F64.of_int n) = Some n.
Proof.
  unfold F64.INT_MIN, F64.INT_MAX. intros R.
  destruct n as [|m|m]; [reflexivity| |].
  - destruct (F64_of_int_pos false m ltac:(lia)) as (k & E & _).
    unfold F64.of_int, binary_normalize. rewrite E. unfold F64.to_int.
    change (- Zpos k) with (Zneg k). cbv beta iota.
    rewrite Pos_iter_xO, Z.div_mul by lia. unfold cond_Zopp.
    unfold F64.INT_MIN, F64.INT_MAX.
    destruct (Z.leb_spec (- 2 ^ 31) (Zpos m)); [|lia].
    destruct (Z.leb_spec (Zpos m) (2 ^ 31 - 1)); [|lia]. reflexivity.
  - destruct (F64_of_int_pos true m ltac:(lia)) as (k & E & _).
    unfold F64.of_int, binary_normalize. rewrite E. unfold F64.to_int.
    change (- Zpos k) with (Zneg k). cbv beta iota.
    rewrite Pos_iter_xO, Z.div_mul by lia. unfold cond_Zopp.
    unfold F64.INT_MIN, F64.INT_MAX.
    change (- Zpos m) with (Zneg m).
    destruct (Z.leb_spec (- 2 ^ 31) (Zneg m)); [|lia].
    destruct (Z.leb_spec (Zneg m) (2 ^ 31 - 1)); [|lia]. reflexivity.
Qed.

(** ** The interpolation functions *)

Lemma F64_mul_one_l a : F64.valid a = true -> F64.mul F64.one a = a.
Proof.
  destruct a as [s|s| |s m e]; try reflexivity. intros V.
  unfold F64.mul, F64.one, SFmul. change (xorb false s) with s.
  change (Zpos (4503599627370496 * m)) with (Zpos (Pos.iter xO m 52)).
  replace (-52 + e) with (e - 52) by lia.
  apply binary_round_aux_exact. exact V.
Qed.

Lemma F64_mul_zero_l s a :
  F64.mul (S754_zero s) a
  = if F64.is_finite a
    then S754_zero (xorb s (match a with
                            | S754_zero s' | S754_finite s' _ _ => s'
                            | _ => false
                            end))
    else S754_nan.
Proof. now destruct a. Qed.

(** Adding a zero changes nothing but, perhaps, the sign of a zero. *)
Lemma F64_add_zero_r a s :
  F64.is_nan a = false ->
  F64.add a (S754_zero s) = a
  \/ exists s1 s2, a = S754_zero s1 /\ F64.add a (S754_zero s) = S754_zero s2.
Proof.
  destruct a as [sa|sa| |sa m e]; try discriminate; intros _.
  - right. exists sa. destruct sa, s; simpl; eauto.
  - now left.
  - now left.
Qed.

Lemma F64_add_zero_l a s :
  F64.is_nan a = false ->
  F64.add (S754_zero s) a = a
  \/ exists s1 s2, a = S754_zero s1 /\ F64.add (S754_zero s) a = S754_zero s2.
Proof.
  destruct a as [sa|sa| |sa m e]; try discriminate; intros _.
  - right. exists sa. destruct sa, s; simpl; eauto.
  - now left.
  - now left.
Qed.

Lemma F64_add_nan_r a : F64.add a S754_nan = S754_nan.
Proof. now destruct a. Qed.

Lemma F64_add_nan_l a : F64.add S754_nan a = S754_nan.
Proof. reflexivity. Qed.

Lemma F64_eq_refl a : F64.is_nan a = false -> F64.eq a a = true.
Proof. intros N. unfold F64.eq, SFeqb. now rewrite SFcompare_refl. Qed.

(** The sum that all three functions compute, at the factors [0.0] and
    [1.0]: the chosen end, up to the sign of a zero, or NaN. *)
Lemma lerp_sum_zero a b :
  F64.valid a = true ->
  let r := F64.add (F64.mul (F64.sub F64.one F64.zero) a) (F64.mul F64.zero b) in
  if F64.is_finite b && negb (F64.is_nan a)
  then r = a \/ exists s1 s2, a = S754_zero s1 /\ r = S754_zero s2
  else r = S754_nan.
Proof.
  intros V r. subst r.
  change (F64.sub F64.one F64.zero) with F64.one.
  rewrite F64_mul_one_l by exact V. unfold F64.zero.
  rewrite F64_mul_zero_l.
  destruct (F64.is_finite b); simpl.
  - destruct (F64.is_nan a) eqn:N; simpl.
    + now destruct a.
    + now apply F64_add_zero_r.
  - apply F64_add_nan_r.
Qed.

Lemma lerp_sum_one a b :
  F64.valid b = true ->
  let r := F64.add (F64.mul (F64.sub F64.one F64.one) a) (F64.mul F64.one b) in
  if F64.is_finite a && negb (F64.is_nan b)
  then r = b \/ exists s1 s2, b = S754_zero s1 /\ r = S754_zero s2
  else r = S754_nan.
Proof.
  intros V r. subst r.
  change (F64.sub F64.one F64.one) with (S754_zero false).
  rewrite F64_mul_one_l by exact V.
  rewrite F64_mul_zero_l.
  destruct (F64.is_finite a); simpl.
  - destruct (F64.is_nan b) eqn:N; simpl.
    + destruct b; try discriminate. reflexivity.
    + now apply F64_add_zero_l.
  - reflexivity.
Qed.

(** X12: [graphene_flerp] at its ends: with the factor [0.0] the result
    compares equal ([==]) to [a] provided [b] is finite and [a] is not
    NaN, and is NaN otherwise; with the factor [1.0] it compares equal to
    [b] provided [a] is finite and [b] is not NaN, and is NaN otherwise.
    So an infinite end makes the other end NaN. *)
Theorem graphene_flerp_ends (a b : double) :
  F64.valid a = true -> F64.valid b = true ->
  (if F64.is_finite b && negb (F64.is_nan a)
   then F64.eq (graphene_flerp a b F64.zero) a = true
   else graphene_flerp a b F64.zero = S754_nan)
  /\ (if F64.is_finite a && negb (F64.is_nan b)
      then F64.eq (graphene_flerp a b F64.one) b = true
      else graphene_flerp a b F64.one = S754_nan).
Proof.
  intros Va Vb. unfold graphene_flerp. split.
  - pose proof (lerp_sum_zero a b Va) as L. cbv zeta in L.
    destruct (F64.is_finite b && negb (F64.is_nan a)) eqn:C; [|exact L].
    apply andb_true_iff in C as [_ N]. apply negb_true_iff in N.
    destruct L as [->|(s1 & s2 & -> & ->)]; [now apply F64_eq_refl|reflexivity].
  - pose proof (lerp_sum_one a b Vb) as L. cbv zeta in L.
    destruct (F64.is_finite a && negb (F64.is_nan b)) eqn:C; [|exact L].
    apply andb_true_iff in C as [_ N]. apply negb_true_iff in N.
    destruct L as [->|(s1 & s2 & -> & ->)]; [now apply F64_eq_refl|reflexivity].
Qed.

Lemma graphene_flerp_ends_witness :
  F64.eq (graphene_flerp F64.one (F64.of_int 3) F64.zero) F64.one = true
  /\ F64.eq (graphene_flerp F64.one (F64.of_int 3) F64.one) (F64.of_int 3) = true.
Proof.
  exact (graphene_flerp_ends F64.one (F64.of_int 3) eq_refl eq_refl).
Defined.

Lemma F64_of_float_class a :
  F32.valid a = true ->
  F64.is_finite (F64.of_float a) = F32.is_finite a
  /\ F64.is_nan (F64.of_float a) = F32.is_nan a.
Proof.
  destruct a as [s|s| |s m e]; try (split; reflexivity). intros V.
  destruct (F64_of_float_finite s m e V) as (k & -> & _). now split.
Qed.

(** X13: [graphene_flerpf] at its ends, for floats: with the factor [0.0]
    the result compares equal to [a] provided [b] is finite and [a] is not
    NaN, and is NaN otherwise; with the factor [1.0] it compares equal to
    [b] provided [a] is finite and [b] is not NaN, and is NaN otherwise.
    The arithmetic in [double] and the conversion back lose nothing
    there. *)
Theorem graphene_flerpf_ends (a b : float) :
  F32.valid a = true -> F32.valid b = true ->
  (if F32.is_finite b && negb (F32.is_nan a)
   then F32.eq (graphene_flerpf a b F64.zero) a = true
   else graphene_flerpf a b F64.zero = S754_nan)
  /\ (if F32.is_finite a && negb (F32.is_nan b)
      then F32.eq (graphene_flerpf a b F64.one) b = true
      else graphene_flerpf a b F64.one = S754_nan).
Proof.
  intros Va Vb. unfold graphene_flerpf.
  change (F64.of_float (F32.of_Z 1)) with F64.one.
  destruct (F64_of_float_class a Va) as [Fa Na].
  destruct (F64_of_float_class b Vb) as [Fb Nb].
  split.
  - pose proof (lerp_sum_zero _ (F64.of_float b) (F64_of_float_valid a Va)) as L.
    cbv zeta in L. rewrite Fb, Na in L.
    destruct (F32.is_finite b && negb (F32.is_nan a)) eqn:C; [|now rewrite L].
    apply andb_true_iff in C as [_ N]. apply negb_true_iff in N.
    destruct L as [->|(s1 & s2 & E & ->)].
    + rewrite F64_to_float_of_float by exact Va.
      unfold F32.eq, SFeqb. now rewrite SFcompare_refl.
    + destruct a as [s| | |]; try discriminate; [reflexivity|].
      destruct (F64_of_float_finite _ _ _ Va) as (k & E' & _).
      rewrite E' in E. discriminate.
  - pose proof (lerp_sum_one (F64.of_float a) _ (F64_of_float_valid b Vb)) as L.
    cbv zeta in L. rewrite Fa, Nb in L.
    destruct (F32.is_finite a && negb (F32.is_nan b)) eqn:C; [|now rewrite L].
    apply andb_true_iff in C as [_ N]. apply negb_true_iff in N.
    destruct L as [->|(s1 & s2 & E & ->)].
    + rewrite F64_to_float_of_float by exact Vb.
      unfold F32.eq, SFeqb. now rewrite SFcompare_refl.
    + destruct b as [s| | |]; try discriminate; [reflexivity|].
      destruct (F64_of_float_finite _ _ _ Vb) as (k & E' & _).
      rewrite E' in E. discriminate.
Qed.

Lemma graphene_flerpf_ends_witness :
  F32.eq (graphene_flerpf (f32 1) (f32 3) F64.zero) (f32 1) = true
  /\ F32.eq (graphene_flerpf (f32 1) (f32 3) F64.one) (f32 3) = true.
Proof.
  exact (graphene_flerpf_ends (f32 1) (f32 3) eq_refl eq_refl).
Defined.

Lemma F64_of_int_valid n :
  F64.INT_MIN <= n <= F64.INT_MAX ->
  F64.valid (F64.of_int n) = true /\ F64.is_finite (F64.of_int n) = true.
Proof.
  unfold F64.INT_MIN, F64.INT_MAX. intros R.
  destruct n as [|m|m]; [now split| |].
  - destruct (F64_of_int_pos false m ltac:(lia)) as (k & E & B).
    unfold F64.of_int, binary_normalize. rewrite E. now split.
  - destruct (F64_of_int_pos true m ltac:(lia)) as (k & E & B).
    unfold F64.of_int, binary_normalize. rewrite E. now split.
Qed.

(** X14: [graphene_ilerp] at its ends: for any two [int]s the factor
    [0.0] gives [a] and the factor [1.0] gives [b], exactly. *)
Theorem graphene_ilerp_ends (a b : Z) :
  F64.INT_MIN <= a <= F64.INT_MAX -> F64.INT_MIN <= b <= F64.INT_MAX ->
  graphene_ilerp a b F64.zero = Some a /\ graphene_ilerp a b F64.one = Some b.
Proof.
  intros Ra Rb. unfold graphene_ilerp.
  destruct (F64_of_int_valid a Ra) as [Va Fa].
  destruct (F64_of_int_valid b Rb) as [Vb Fb].
  assert (Na : F64.is_nan (F64.of_int a) = false)
    by (now destruct (F64.of_int a)).
  assert (Nb : F64.is_nan (F64.of_int b) = false)
    by (now destruct (F64.of_int b)).
  split.
  - pose proof (lerp_sum_zero _ (F64.of_int b) Va) as L. cbv zeta in L.
    rewrite Fb, Na in L. cbn [andb negb] in L.
    destruct L as [->|(s1 & s2 & E & ->)].
    + now apply F64_to_int_of_int.
    + rewrite <- (F64_to_int_of_int a Ra), E. reflexivity.
  - pose proof (lerp_sum_one (F64.of_int a) _ Vb) as L. cbv zeta in L.
    rewrite Fa, Nb in L. cbn [andb negb] in L.
    destruct L as [->|(s1 & s2 & E & ->)].
    + now apply F64_to_int_of_int.
    + rewrite <- (F64_to_int_of_int b Rb), E. reflexivity.
Qed.

Lemma graphene_ilerp_ends_witness :
  graphene_ilerp (-7) 2147483647 F64.zero = Some (-7)
  /\ graphene_ilerp (-7) 2147483647 F64.one = Some 2147483647.
Proof.
  apply (graphene_ilerp_ends (-7) 2147483647); unfold F64.INT_MIN, F64.INT_MAX; lia.
Defined.

(** ** The macros [MIN], [MAX] and [CLAMP] *)

Lemma F32_lt_nan_l a b : F32.is_nan a = true -> F32.lt a b = false.
Proof. now destruct a. Qed.

Lemma F32_lt_nan_r a b : F32.is_nan b = true -> F32.lt a b = false.
Proof. destruct b; try discriminate. now destruct a. Qed.

Lemma F32_le_not_nan a b :
  F32.le a b = true -> F32.is_nan a = false /\ F32.is_nan b = false.
Proof.
  intros L. split.
  - destruct (F32.is_nan a) eqn:N; [|reflexivity].
    now rewrite (F32_le_nan_l a b N) in L.
  - destruct (F32.is_nan b) eqn:N; [|reflexivity].
    now rewrite (F32_le_nan_r a b N) in L.
Qed.

Lemma F32_le_not_lt a b : F32.le a b = true -> F32.lt b a = false.
Proof.
  unfold F32.le, F32.lt, SFleb, SFltb. rewrite (SFcompare_swap a b).
  now destruct (SFcompare a b) as [[]|].
Qed.

Lemma F32_lt_le_trans a b c :
  F32.lt a b = true -> F32.le b c = true -> F32.lt a c = true.
Proof.
  intros L1 L2. destruct (F32.lt a c) eqn:L; [reflexivity|].
  destruct (F32_le_not_nan _ _ (F32_lt_le _ _ L1)) as [Na _].
  destruct (F32_le_not_nan _ _ L2) as [_ Nc].
  pose proof (F32_not_lt_le a c Na Nc L) as L3.
  pose proof (F32_le_trans _ _ _ L2 L3) as L4.
  now rewrite (F32_le_not_lt _ _ L4) in L1.
Qed.

(** X15: [CLAMP] on floats: when the value is not NaN and the bounds are
    in order, the result lies between the bounds, it is one of the three
    arguments, and it is the value itself whenever the value already lies
    between the bounds. *)
Theorem CLAMP_float_range (v lo hi : float) :
  F32.is_nan v = false -> F32.le lo hi = true ->
  F32.le lo (CLAMP F32.lt v lo hi) = true
  /\ F32.le (CLAMP F32.lt v lo hi) hi = true
  /\ (F32.le lo v = true -> F32.le v hi = true -> CLAMP F32.lt v lo hi = v).
Proof.
  intros Nv L. destruct (F32_le_not_nan _ _ L) as [Nlo Nhi].
  unfold CLAMP. destruct (F32.lt v lo) eqn:L1.
  - split; [now apply F32_le_refl|]. split; [exact L|].
    intros L2 _. now rewrite (F32_le_not_lt _ _ L2) in L1.
  - destruct (F32.lt hi v) eqn:L2.
    + split; [exact L|]. split; [now apply F32_le_refl|].
      intros _ L3. now rewrite (F32_le_not_lt _ _ L3) in L2.
    + split; [now apply F32_not_lt_le|]. split; [now apply F32_not_lt_le|].
      reflexivity.
Qed.

Lemma CLAMP_float_range_witness :
  F32.le (f32 0) (CLAMP F32.lt (f32 5) (f32 0) (f32 3)) = true
  /\ F32.le (CLAMP F32.lt (f32 5) (f32 0) (f32 3)) (f32 3) = true
  /\ (F32.le (f32 0) (f32 5) = true -> F32.le (f32 5) (f32 3) = true ->
      CLAMP F32.lt (f32 5) (f32 0) (f32 3) = f32 5).
Proof.
  exact (CLAMP_float_range (f32 5) (f32 0) (f32 3) eq_refl eq_refl).
Defined.

(** X16: NaN in the macros: [MIN] and [MAX] give their second argument
    as soon as one of the two is NaN, so a NaN first argument is dropped
    and a NaN second argument is returned; [CLAMP] returns a NaN value
    unchanged whatever the bounds are, and ignores a bound that is NaN. *)
Theorem MIN_MAX_CLAMP_nan (a b v lo hi : float) :
  (F32.is_nan a || F32.is_nan b = true ->
   MIN F32.lt a b = b /\ MAX F32.lt a b = b)
  /\ (F32.is_nan v = true -> CLAMP F32.lt v lo hi = v)
  /\ (F32.is_nan lo = true -> CLAMP F32.lt v lo hi = MIN F32.lt hi v)
  /\ (F32.is_nan hi = true -> CLAMP F32.lt v lo hi = MAX F32.lt lo v).
Proof.
  unfold MIN, MAX, CLAMP. split; [|split; [|split]].
  - intros N. apply orb_true_iff in N as [N|N].
    + now rewrite (F32_lt_nan_l a b N), (F32_lt_nan_r b a N).
    + now rewrite (F32_lt_nan_r a b N), (F32_lt_nan_l b a N).
  - intros N. now rewrite (F32_lt_nan_l v lo N), (F32_lt_nan_r hi v N).
  - intros N. now rewrite (F32_lt_nan_r v lo N).
  - intros N. rewrite (F32_lt_nan_l hi v N). now destruct (F32.lt v lo).
Qed.

Lemma MIN_MAX_CLAMP_nan_witness :
  MIN F32.lt S754_nan (f32 1) = f32 1 /\ MAX F32.lt S754_nan (f32 1) = f32 1.
Proof.
  exact (proj1 (MIN_MAX_CLAMP_nan S754_nan (f32 1) (f32 0) (f32 0) (f32 0)) eq_refl).
Defined.

(** X17: [MIN] and [MAX] on floats that are not NaN: each result is one
    of the two arguments, [MIN] is below both and [MAX] is above both. *)
Theorem MIN_MAX_float_bounds (a b : float) :
  F32.is_nan a = false -> F32.is_nan b = false ->
  (MIN F32.lt a b = a \/ MIN F32.lt a b = b)
  /\ F32.le (MIN F32.lt a b) a = true /\ F32.le (MIN F32.lt a b) b = true
  /\ (MAX F32.lt a b = a \/ MAX F32.lt a b = b)
  /\ F32.le a (MAX F32.lt a b) = true /\ F32.le b (MAX F32.lt a b) = true.
Proof.
  intros Na Nb. unfold MIN, MAX.
  destruct (F32.lt a b) eqn:L1, (F32.lt b a) eqn:L2;
    repeat match goal with
           | |- _ /\ _ => split
           | |- ?x = ?x \/ _ => now left
           | |- _ \/ ?x = ?x => now right
           | |- F32.le ?x ?x = true => now apply F32_le_refl
           | |- F32.le _ _ = true =>
               first [now apply F32_lt_le | now apply F32_not_lt_le]
           end.
Qed.

Lemma MIN_MAX_float_bounds_witness :
  (MIN F32.lt (f32 2) (f32 1) = f32 2 \/ MIN F32.lt (f32 2) (f32 1) = f32 1)
  /\ F32.le (MIN F32.lt (f32 2) (f32 1)) (f32 2) = true
  /\ F32.le (MIN F32.lt (f32 2) (f32 1)) (f32 1) = true
  /\ (MAX F32.lt (f32 2) (f32 1) = f32 2 \/ MAX F32.lt (f32 2) (f32 1) = f32 1)
  /\ F32.le (f32 2) (MAX F32.lt (f32 2) (f32 1)) = true
  /\ F32.le (f32 1) (MAX F32.lt (f32 2) (f32 1)) = true.
Proof.
  exact (MIN_MAX_float_bounds (f32 2) (f32 1) eq_refl eq_refl).
Defined.

(** X18: [CLAMP] on integers: with the bounds in order the result is the
    value brought into the range, [max lo (min v hi)]; with the bounds
    crossed the value is lost, and the result is the lower bound when the
    value is below it and the upper bound otherwise. *)
Theorem CLAMP_int (v lo hi : Z) :
  (lo <= hi ->
   CLAMP Z.ltb v lo hi = Z.max lo (Z.min v hi)
   /\ lo <= CLAMP Z.ltb v lo hi <= hi)
  /\ (hi < lo -> CLAMP Z.ltb v lo hi = if v <? lo then lo else hi).
Proof.
  unfold CLAMP. split; intros H;
    destruct (Z.ltb_spec v lo), (Z.ltb_spec hi v); lia.
Qed.

Lemma CLAMP_int_witness :
  CLAMP Z.ltb 7 0 5 = Z.max 0 (Z.min 7 5) /\ 0 <= CLAMP Z.ltb 7 0 5 <= 5.
Proof.
  apply (proj1 (CLAMP_int 7 0 5)). lia.
Defined.

(** ** [graphene_fuzzy_equals] *)

Lemma F32_lt_zero_sign s s' e :
  F32.lt (S754_zero s) e = F32.lt (S754_zero s') e.
Proof. now destruct e. Qed.

(** X19: [graphene_fuzzy_equals] is symmetric in the two numbers, whatever
    they are. *)
Theorem graphene_fuzzy_equals_sym (n1 n2 epsilon : float) :
  graphene_fuzzy_equals n1 n2 epsilon = graphene_fuzzy_equals n2 n1 epsilon.
Proof.
  unfold graphene_fuzzy_equals.
  destruct (F32.lt n2 n1) eqn:L1, (F32.lt n1 n2) eqn:L2; try reflexivity.
  - apply F32_lt_le, F32_le_not_lt in L1. congruence.
  - destruct (F32.is_nan n1) eqn:N1.
    { destruct n1; try discriminate. now destruct n2. }
    destruct (F32.is_nan n2) eqn:N2.
    { destruct n2; try discriminate. now destruct n1. }
    assert (E : F32.eq n1 n2 = true).
    { unfold F32.lt, SFltb in L1, L2. unfold F32.eq, SFeqb.
      rewrite (SFcompare_swap n1 n2) in L1.
      destruct (SFcompare_not_nan n1 n2 N1 N2) as [c C].
      rewrite C in *. now destruct c. }
    destruct (F32_eq_cases _ _ E) as [->|(s & s' & -> & ->)]; [reflexivity|].
    destruct s, s'; simpl; apply F32_lt_zero_sign.
Qed.

Lemma F32_sub_abs_not_negative n1 n2 :
  F32.valid n1 = true -> F32.valid n2 = true ->
  F32.lt (if F32.lt n2 n1 then F32.sub n1 n2 else F32.sub n2 n1) F32.zero
  = false.
Proof.
  intros V1 V2. destruct (F32.lt n2 n1) eqn:L.
  - destruct (F32_sub_sign n1 n2 V1 V2) as (E & _ & _). rewrite E.
    now apply F32_le_not_lt, F32_lt_le.
  - destruct (F32_sub_sign n2 n1 V2 V1) as (E & _ & _). now rewrite E.
Qed.

(** X20: With a tolerance that is not greater than zero (zero, negative
    or NaN) no two numbers are fuzzy-equal, not even a number and
    itself. *)
Theorem graphene_fuzzy_equals_no_tolerance (n1 n2 epsilon : float) :
  F32.valid n1 = true -> F32.valid n2 = true ->
  F32.lt F32.zero epsilon = false ->
  graphene_fuzzy_equals n1 n2 epsilon = false.
Proof.
  intros V1 V2 E. unfold graphene_fuzzy_equals.
  pose proof (F32_sub_abs_not_negative n1 n2 V1 V2) as A.
  set (d := if F32.lt n2 n1 then F32.sub n1 n2 else F32.sub n2 n1) in *.
  destruct (F32.lt d epsilon) eqn:L; [|reflexivity].
  destruct (F32_le_not_nan _ _ (F32_lt_le _ _ L)) as [_ Ne].
  pose proof (F32_not_lt_le F32.zero epsilon eq_refl Ne E) as L'.
  now rewrite (F32_lt_le_trans _ _ _ L L') in A.
Qed.

Lemma graphene_fuzzy_equals_no_tolerance_witness :
  graphene_fuzzy_equals (f32 1) (f32 1) (f32 0) = false.
Proof.
  exact (graphene_fuzzy_equals_no_tolerance (f32 1) (f32 1) (f32 0)
           eq_refl eq_refl eq_refl).
Defined.

(** X21: Two finite numbers that compare equal ([==]) are fuzzy-equal
    exactly when the tolerance is greater than zero; an infinity is never
    fuzzy-equal to itself, since the difference is NaN. *)
Theorem graphene_fuzzy_equals_same (n1 n2 epsilon : float) :
  F32.valid n1 = true -> F32.valid n2 = true ->
  F32.eq n1 n2 = true ->
  graphene_fuzzy_equals n1 n2 epsilon
  = F32.is_finite n1 && F32.lt F32.zero epsilon.
Proof.
  intros V1 V2 E. unfold graphene_fuzzy_equals.
  rewrite (F32_le_not_lt _ _ (F32_eq_le _ _ E)).
  destruct (F32_sub_sign n2 n1 V2 V1) as (_ & _ & Z).
  rewrite (F32_eq_sym n2 n1), E in Z.
  destruct (F32.is_finite n1) eqn:F; simpl in *.
  - destruct (F32.sub n2 n1) as [s|[]| |[] m e]; try discriminate.
    apply F32_lt_zero_sign.
  - destruct (F32_eq_cases _ _ E) as [->|(s & s' & -> & ->)]; [|discriminate].
    destruct n2 as [|[]| |]; try discriminate; reflexivity.
Qed.

Lemma graphene_fuzzy_equals_same_witness :
  graphene_fuzzy_equals (f32 0) (F32.neg F32.zero) GRAPHENE_FLOAT_EPSILON
  = F32.is_finite (f32 0) && F32.lt F32.zero GRAPHENE_FLOAT_EPSILON.
Proof.
  exact (graphene_fuzzy_equals_same (f32 0) (F32.neg F32.zero)
           GRAPHENE_FLOAT_EPSILON eq_refl eq_refl eq_refl).
Defined.
